(** * Consul service watcher of go-upstream (registry/consul/service.go)

    Shallow embedding of the per-datacenter watcher [watchService], the
    cross-datacenter aggregator [watchServices] and the helpers
    [checkClusterChanged], [checkCheckersEqual], [servicesConfig] and
    [serviceConfig]; and the HTTP request builder of package client
    (src/unnamed/part_000): [NewReq], the [With*] builders, [Response]
    and the parsers.

    Go slices are modelled as Rocq lists.  The nil/empty distinction of
    [reflect.DeepEqual] is not modelled: every producer in this file yields
    either always nil or always non-nil slices for a given field, so the
    comparisons made by the code never meet a mixed pair. *)

From Stdlib Require Import List String ZArith NArith Bool Permutation Sorted Lia.
From Stdlib Require Import OrdersEx.
Import ListNotations.
Open Scope string_scope.
Open Scope list_scope.

(* ------------------------------------------------------------------ *)
(** ** Data model (registry.Endpoint, registry.Cluster, Consul API)    *)

(** [registry.Endpoint]; [Port] is a Go [int]. *)
Record Endpoint := mkEndpoint {
  ID   : string;
  Addr : string;
  Port : Z;
  Tags : list string
}.

(** [registry.Cluster] (package registry, not part of this file's
    sources).  The code sets [Name] and [Endpoints]; the spec has the
    environment tag appended "to the cluster", which a cluster with no
    endpoint still carries, so the model gives the cluster its own list
    [EnvTags] of environment tags. *)
Record Cluster := mkClusterT {
  Name      : string;
  Endpoints : list Endpoint;
  EnvTags   : list string
}.

(** The composite literal [&registry.Cluster{Name: n, Endpoints: eps}]:
    the omitted field has its zero value. *)
Definition mkCluster (n : string) (eps : list Endpoint) : Cluster :=
  mkClusterT n eps [].

(** [api.HealthCheck], restricted to the fields the watcher reads. *)
Module ApiHealth.
Record HealthCheck := mkHealthCheck {
  Node        : string;
  CheckID     : string;
  Name        : string;
  Status      : string;
  ServiceID   : string;
  ServiceName : string;
  ServiceTags : list string
}.
End ApiHealth.

(** [api.CatalogService], restricted to the fields [serviceConfig] reads. *)
Module ApiCatalog.
Record CatalogService := mkCatalogService {
  Address        : string;
  Datacenter     : string;
  ServiceID      : string;
  ServiceAddress : string;
  ServicePort    : Z;
  ServiceTags    : list string
}.
End ApiCatalog.

(* ------------------------------------------------------------------ *)
(** ** Equality used by [reflect.DeepEqual]                            *)

Fixpoint strings_eqb (l1 l2 : list string) : bool :=
  match l1, l2 with
  | [], [] => true
  | x :: l1', y :: l2' => String.eqb x y && strings_eqb l1' l2'
  | _, _ => false
  end.

Definition endpoint_eqb (e1 e2 : Endpoint) : bool :=
  String.eqb (ID e1) (ID e2) && String.eqb (Addr e1) (Addr e2) &&
  Z.eqb (Port e1) (Port e2) && strings_eqb (Tags e1) (Tags e2).

(** [reflect.DeepEqual] on two [[]registry.Endpoint]. *)
Fixpoint endpoints_eqb (l1 l2 : list Endpoint) : bool :=
  match l1, l2 with
  | [], [] => true
  | x :: l1', y :: l2' => endpoint_eqb x y && endpoints_eqb l1' l2'
  | _, _ => false
  end.

(* ------------------------------------------------------------------ *)
(** ** Sorting ([sort.Sort(endpointSlice(..))] and [sort.Strings])     *)

(** Go's [sort.Sort] runs an insertion sort on inputs of at most 12
    elements: element [i] is swapped leftwards while it is strictly
    [Less] than its left neighbour.  [insert_by_id] / [sort_by_id] are
    that algorithm written functionally (elements with equal IDs keep
    their relative order).  On longer inputs Go switches to pdqsort,
    which may order equal-ID elements differently; it still yields an
    ID-sorted permutation, which is all the general lemmas below use. *)
Fixpoint insert_by_id (x : Endpoint) (l : list Endpoint) : list Endpoint :=
  match l with
  | [] => [x]
  | y :: l' => if String.ltb (ID x) (ID y) then x :: y :: l'
               else y :: insert_by_id x l'
  end.

Definition sort_by_id (l : list Endpoint) : list Endpoint :=
  fold_left (fun acc x => insert_by_id x acc) l [].

(** [sort.Strings]: strings with equal keys are identical, so every
    sorting algorithm gives the same result. *)
Fixpoint insert_string (x : string) (l : list string) : list string :=
  match l with
  | [] => [x]
  | y :: l' => if String.ltb x y then x :: y :: l' else y :: insert_string x l'
  end.

Definition sort_strings (l : list string) : list string :=
  fold_left (fun acc x => insert_string x acc) l [].

(** [sort.Sort(Endpoints(c.Endpoints))]: the cluster's endpoints are
    sorted in place, its other fields are untouched. *)
Definition sort_cluster (c : Cluster) : Cluster :=
  mkClusterT (Name c) (sort_by_id (Endpoints c)) (EnvTags c).

(* ------------------------------------------------------------------ *)
(** ** [checkClusterChanged]                                            *)

(** The inner closure [checkCluster] sorts both clusters' endpoint slices
    in place; the loop stops at the first pair that differs.  The
    function returns the verdict together with the two argument lists as
    the caller sees them afterwards (in-place sorting is visible through
    the shared [*registry.Cluster] pointers). *)
Fixpoint check_cluster_loop (new last : list Cluster)
  : bool * list Cluster * list Cluster :=
  match new, last with
  | c1 :: new', c2 :: last' =>
      let c1' := sort_cluster c1 in
      let c2' := sort_cluster c2 in
      if negb (endpoints_eqb (Endpoints c1') (Endpoints c2'))
      then (true, c1' :: new', c2' :: last')
      else let '(b, n'', l'') := check_cluster_loop new' last' in
           (b, c1' :: n'', c2' :: l'')
  | _, _ => (false, new, last)
  end.

Definition checkClusterChanged (new last : list Cluster)
  : bool * list Cluster * list Cluster :=
  if negb (Nat.eqb (List.length new) (List.length last)) then (true, new, last)
  else check_cluster_loop new last.

Definition cluster_changed (new last : list Cluster) : bool :=
  fst (fst (checkClusterChanged new last)).

(* ------------------------------------------------------------------ *)
(** ** [checkCheckersEqual]                                             *)

Definition check_match (j h : ApiHealth.HealthCheck) : bool :=
  String.eqb (ApiHealth.Node j) (ApiHealth.Node h) &&
  String.eqb (ApiHealth.CheckID j) (ApiHealth.CheckID h) &&
  String.eqb (ApiHealth.Name j) (ApiHealth.Name h) &&
  String.eqb (ApiHealth.Status j) (ApiHealth.Status h) &&
  String.eqb (ApiHealth.ServiceID j) (ApiHealth.ServiceID h) &&
  String.eqb (ApiHealth.ServiceName j) (ApiHealth.ServiceName h) &&
  strings_eqb (ApiHealth.ServiceTags j) (ApiHealth.ServiceTags h).

(** [checkIn h1 h2]: every element of [h1] has a match in [h2]. *)
Definition checkIn (h1 h2 : list ApiHealth.HealthCheck) : bool :=
  forallb (fun h => existsb (fun j => check_match j h) h2) h1.

Definition checkCheckersEqual (old new : list ApiHealth.HealthCheck) : bool :=
  checkIn old new && checkIn new old.

(* ------------------------------------------------------------------ *)
(** ** [serviceConfig]                                                  *)

(** [registry.Cluster.AddEnvTag] (package registry, not part of this
    file's sources).  Modelled from the spec: "append a fixed environment
    tag to the cluster", so the tag is appended to the cluster's own
    [EnvTags], with or without endpoints; following the spec's data model
    and its end-to-end scenario ([Tags:["dc=us", <env>]]) it is also
    appended to the tag list of every endpoint of the cluster. *)
Definition AddEnvTag (env : string) (c : Cluster) : Cluster :=
  mkClusterT (Name c)
    (map (fun e => mkEndpoint (ID e) (Addr e) (Port e) (Tags e ++ [env])%list)
         (Endpoints c))
    (EnvTags c ++ [env]).

(** [passing[svc.ServiceID]] on the [map[string]bool] of passing IDs. *)
Definition in_passing (passing : list string) (id : string) : bool :=
  existsb (String.eqb id) passing.

(** The body of the [for _, svc := range svcs] loop for a passing
    instance. *)
Definition mk_endpoint (svc : ApiCatalog.CatalogService) : Endpoint :=
  let svctags := sort_strings (ApiCatalog.ServiceTags svc ++
                               [("dc=" ++ ApiCatalog.Datacenter svc)%string])%list in
  let addr := if String.eqb (ApiCatalog.ServiceAddress svc) ""
              then ApiCatalog.Address svc
              else ApiCatalog.ServiceAddress svc in
  mkEndpoint (ApiCatalog.ServiceID svc) addr (ApiCatalog.ServicePort svc) svctags.

(** The endpoint loop: [continue] for non-passing instances, [append]
    otherwise. *)
Fixpoint build_endpoints (passing : list string)
         (svcs : list ApiCatalog.CatalogService) : list Endpoint :=
  match svcs with
  | [] => []
  | svc :: svcs' =>
      if in_passing passing (ApiCatalog.ServiceID svc)
      then mk_endpoint svc :: build_endpoints passing svcs'
      else build_endpoints passing svcs'
  end.

(** The guard [name == "" || len(passing) == 0] negated: the catalog is
    queried. *)
Definition catalog_queried (name : string) (passing : list string) : bool :=
  negb (String.eqb name "" || Nat.eqb (List.length passing) 0).

(** The Consul catalog as seen in one cycle: [client.Catalog().Service]
    for a service name and a datacenter; [None] is an error. *)
Definition CatalogAPI := string -> string -> option (list ApiCatalog.CatalogService).

(** [serviceConfig]; the [defer cluster.AddEnvTag()] is registered only
    after the catalog call succeeded, and runs at the final [return]. *)
Definition serviceConfig (env : string) (catalog : CatalogAPI) (name : string)
           (passing : list string) (dc : string) : Cluster :=
  if negb (catalog_queried name passing) then mkCluster name []
  else match catalog name dc with
       | None => mkCluster name []
       | Some svcs => AddEnvTag env (mkCluster name (build_endpoints passing svcs))
       end.

(* ------------------------------------------------------------------ *)
(** ** [servicesConfig]                                                 *)

(** The [map[string]map[string]bool] built by [servicesConfig], as an
    association list in first-insertion order; the inner map is a set of
    service IDs. *)
Definition add_id (id : string) (ids : list string) : list string :=
  if in_passing ids id then ids else (ids ++ [id])%list.

Fixpoint group_insert (name id : string) (m : list (string * list string))
  : list (string * list string) :=
  match m with
  | [] => [(name, [id])]
  | (n, ids) :: m' => if String.eqb n name then (n, add_id id ids) :: m'
                      else (n, ids) :: group_insert name id m'
  end.

Definition group_checks (checks : list ApiHealth.HealthCheck)
  : list (string * list string) :=
  fold_left (fun m c => group_insert (ApiHealth.ServiceName c)
                                     (ApiHealth.ServiceID c) m) checks [].

(** One step of the grouping loop. *)
Definition group_step (m : list (string * list string)) (c : ApiHealth.HealthCheck) :=
  group_insert (ApiHealth.ServiceName c) (ApiHealth.ServiceID c) m.

Definition lookup_group (m : list (string * list string)) (name : string)
  : list string :=
  match find (fun p => String.eqb (fst p) name) m with
  | Some (_, ids) => ids
  | None => []
  end.

(** [for name, passing := range m]: Go gives no order guarantee for map
    iteration; [order] is the order the runtime picked in this call, a
    permutation of the keys (see [valid_order]). *)
Definition valid_order (checks : list ApiHealth.HealthCheck) (order : list string) : Prop :=
  Permutation order (map fst (group_checks checks)).

Definition servicesConfig (env : string) (catalog : CatalogAPI)
           (checks : list ApiHealth.HealthCheck) (dc : string)
           (order : list string) : list Cluster :=
  let m := group_checks checks in
  map (fun name => serviceConfig env catalog name (lookup_group m name) dc) order.

(** The service names whose catalog is queried, in call order. *)
Definition catalog_calls (checks : list ApiHealth.HealthCheck) (order : list string)
  : list string :=
  let m := group_checks checks in
  filter (fun name => catalog_queried name (lookup_group m name)) order.

(* ------------------------------------------------------------------ *)
(** ** [watchService]: the per-datacenter watcher                       *)

(** The loop-scoped variables [lastIndex], [oldCheckers], [lastConfig]. *)
Record WatchState := mkWatchState {
  lastIndex   : N;
  oldCheckers : list ApiHealth.HealthCheck;
  lastConfig  : list Cluster
}.

(** What the outside world supplies to one iteration of the loop: the
    answer of [client.Health().Service] ([None] is [err != nil]; the
    [N] is [meta.LastIndex]), the catalog, and the iteration order the Go
    runtime picks for the map in [servicesConfig]. *)
Record Cycle := mkCycle {
  health  : option (list (list ApiHealth.HealthCheck) * N);
  catalog : CatalogAPI;
  order   : list string
}.

(** The query issued at the start of an iteration: [WaitIndex] is the
    current cursor. *)
Definition wait_index (st : WatchState) : N := lastIndex st.

Section Watcher.

(** [passingServices] lives elsewhere in the package; the watcher is
    modelled for every filter of that type. *)
Variable passingServices :
  list ApiHealth.HealthCheck -> list string -> list ApiHealth.HealthCheck.
Variable env : string.
Variable status : list string.
Variable dc : string.

(** One iteration of the [for] loop of [watchService].  Result: the new
    state, the value sent on [config] (if any), and the service names
    whose catalog was queried.  The in-place sorting done by
    [checkClusterChanged] on [newConfig] is visible in what is sent and
    persisted; its effect on the previous [lastConfig] is dropped with
    that value. *)
Definition watchService_step (st : WatchState) (cyc : Cycle)
  : WatchState * option (list Cluster) * list string :=
  match health cyc with
  | None => (st, None, [])                       (* sleep 1s; continue *)
  | Some (services, idx) =>
      let checks := List.concat services in
      let passCheckers := passingServices checks status in
      if checkCheckersEqual (oldCheckers st) passCheckers
      then (mkWatchState idx (oldCheckers st) (lastConfig st), None, [])
      else
        let newConfig := servicesConfig env (catalog cyc) passCheckers dc (order cyc) in
        let '(changed, newConfig', _) := checkClusterChanged newConfig (lastConfig st) in
        (mkWatchState idx passCheckers newConfig',
         if changed then Some newConfig' else None,
         catalog_calls passCheckers (order cyc))
  end.

Definition watch_init : WatchState := mkWatchState 0%N [] [].

(** Several iterations: final state, everything sent, every catalog
    query. *)
Fixpoint watch_run (st : WatchState) (cycles : list Cycle)
  : WatchState * list (list Cluster) * list string :=
  match cycles with
  | [] => (st, [], [])
  | cyc :: cycles' =>
      let '(st1, out, calls) := watchService_step st cyc in
      let '(st2, outs, calls') := watch_run st1 cycles' in
      (st2, match out with Some v => v :: outs | None => outs end, (calls ++ calls')%list)
  end.

End Watcher.

(* ------------------------------------------------------------------ *)
(** ** [watchServices]: the cross-datacenter aggregator                 *)

(** [cases] (an entry is [false] once its channel was set to nil),
    [lastConfig] (one slot per datacenter) and [lastResult]. *)
Record AggState := mkAggState {
  active     : list bool;
  slots      : list (list Cluster);
  lastResult : list Cluster
}.

(** What [reflect.Select] returns: a value from channel [i], or channel
    [i] found closed. *)
Inductive Event :=
| Recv (i : nat) (v : list Cluster)
| Closed (i : nat).

Fixpoint update_nth {A} (i : nat) (x : A) (l : list A) : list A :=
  match l, i with
  | [], _ => []
  | _ :: l', O => x :: l'
  | y :: l', S i' => y :: update_nth i' x l'
  end.

(** The rebuilt [result]: one cluster named [service]; for each slot in
    datacenter order, the endpoints of its first cluster are appended
    when the slot and that endpoint list are non-empty. *)
Definition merge_slots (service : string) (sl : list (list Cluster)) : list Cluster :=
  [mkCluster service
     (fold_left (fun acc s =>
                   match s with
                   | c :: _ => if negb (Nat.eqb (List.length (Endpoints c)) 0)
                               then (acc ++ Endpoints c)%list else acc
                   | [] => acc
                   end) sl [])].

(** One iteration of the [for] loop of [watchServices].  [None]: the
    event cannot happen ([reflect.Select] never selects a nil channel). *)
Definition watchServices_step (service : string) (st : AggState) (ev : Event)
  : option (AggState * option (list Cluster)) :=
  match ev with
  | Closed i =>
      if nth i (active st) false
      then Some (mkAggState (update_nth i false (active st)) (slots st) (lastResult st), None)
      else None
  | Recv i v =>
      if nth i (active st) false
      then
        let sl := update_nth i v (slots st) in
        let result := merge_slots service sl in
        let '(changed, result', _) := checkClusterChanged result (lastResult st) in
        Some (mkAggState (active st) sl result', if changed then Some result' else None)
      else None
  end.

Definition agg_init (n : nat) : AggState := mkAggState (List.repeat true n) (List.repeat [] n) [].

(** Several iterations of the [watchServices] loop: final state and
    every value sent; [None] if some event cannot happen. *)
Fixpoint agg_run (service : string) (st : AggState) (evs : list Event)
  : option (AggState * list (list Cluster)) :=
  match evs with
  | [] => Some (st, [])
  | ev :: evs' =>
      match watchServices_step service st ev with
      | None => None
      | Some (st1, out) =>
          match agg_run service st1 evs' with
          | None => None
          | Some (st2, outs) => Some (st2, match out with Some v => v :: outs | None => outs end)
          end
      end
  end.

(* ================================================================== *)
(** * The HTTP request builder of package client (src/unnamed/part_000) *)
(* ================================================================== *)

(** A chain [NewReq(ctx).Post(url).WithHeader(...).WithBody(...)
    .Response().ParseJson(&out)] on one [*client].  Every builder method
    mutates the client in place and returns it, so a chain is a sequence
    of state transformers; a Go panic is [None].  Errors are modelled by
    their message.  [ctx] is only used for logging and is left out, as
    is the warning logged by [WithHeaders]. *)
Module Client.

Definition error := string.

(** [*tls.Config], restricted to two fields: the code only passes the
    pointer on to the transport. *)
Record TLSConfig := mkTLSConfig {
  InsecureSkipVerify : bool;
  ServerName         : string
}.

(** [http.Header] ([map[string][]string]); [HNil] is the nil map.  The
    map is an association list; no statement depends on its order. *)
Inductive Header :=
| HNil
| HMap (m : list (string * list string)).

(** [*http.Response], restricted to what the parsers read; [Body] is the
    outcome of [ioutil.ReadAll] on the response body. *)
Record HttpResponse := mkHttpResponse {
  StatusCode : Z;
  Status     : string;
  Body       : error + string
}.

(** The [client] struct; [body] is the content of the [io.Reader]
    ([None]: nil). *)
Record client := mkClient {
  url             : string;
  header          : Header;
  body            : option string;
  method          : string;
  timeout         : Z;
  err             : option error;
  respBody        : option HttpResponse;
  tlsClientConfig : option TLSConfig
}.

(** The request handed to [client.Do]: the fields of [http.NewRequest]'s
    result that [Response] sets, and the [http.Client] timeout. *)
Record Request := mkRequest {
  rmethod  : string;
  rurl     : string;
  rbody    : option string;
  rheader  : Header;
  rtimeout : Z;
  rtls     : option TLSConfig
}.

(** The dynamic type of the [WithBody] argument: an [io.Reader] (with
    the outcome of [ioutil.ReadAll]), a [[]byte], a [string], or any
    other value (with the outcome of [jsoniter.Marshal]). *)
Inductive BodyArg :=
| BReader (r : error + string)
| BBytes  (b : string)
| BString (s : string)
| BOther  (m : error + string).

Definition MethodGet : string := "GET".
Definition MethodPost : string := "POST".
Definition StatusOK : Z := 200.
Definition defaultTimeout : Z := 5.

(** [h[key] = append(h[key], value)] on a non-nil map. *)
Fixpoint map_add (key v : string) (m : list (string * list string))
  : list (string * list string) :=
  match m with
  | [] => [(key, [v])]
  | (k, vs) :: m' => if String.eqb k key then (k, vs ++ [v]) :: m'
                     else (k, vs) :: map_add key v m'
  end.

(** [h[key]], [nil] when absent. *)
Fixpoint map_get (key : string) (m : list (string * list string)) : list string :=
  match m with
  | [] => []
  | (k, vs) :: m' => if String.eqb k key then vs else map_get key m'
  end.

Definition set_header (c : client) (h : Header) : client :=
  mkClient (url c) h (body c) (method c) (timeout c) (err c) (respBody c) (tlsClientConfig c).
Definition set_body (c : client) (b : option string) : client :=
  mkClient (url c) (header c) b (method c) (timeout c) (err c) (respBody c) (tlsClientConfig c).
Definition set_err (c : client) (e : error) : client :=
  mkClient (url c) (header c) (body c) (method c) (timeout c) (Some e) (respBody c)
           (tlsClientConfig c).
Definition set_respBody (c : client) (r : HttpResponse) : client :=
  mkClient (url c) (header c) (body c) (method c) (timeout c) (err c) (Some r)
           (tlsClientConfig c).

Section Builders.

(** [textproto.CanonicalMIMEHeaderKey], used by [http.Header.Add] and
    [http.Header.Values]. *)
Variable canon : string -> string.
(** [fmt.Sprint] on the [interface{}] arguments. *)
Context {Value : Type}.
Variable sprint : Value -> string.

(** [http.Header.Add]: panics on a nil map. *)
Definition header_Add (h : Header) (k v : string) : option Header :=
  match h with
  | HNil => None
  | HMap m => Some (HMap (map_add (canon k) v m))
  end.

(** [http.Header.Values]. *)
Definition header_values (h : Header) (k : string) : list string :=
  match h with
  | HNil => []
  | HMap m => map_get (canon k) m
  end.

Definition NewReq : client :=
  mkClient "" HNil None "" defaultTimeout None None None.

Definition Get (c : client) (u : string) : client :=
  mkClient u (header c) (body c) MethodGet (timeout c) (err c) (respBody c) (tlsClientConfig c).

Definition Post (c : client) (u : string) : client :=
  mkClient u (header c) (body c) MethodPost (timeout c) (err c) (respBody c) (tlsClientConfig c).

(** [WithHeader]: a nil header is first replaced by [http.Header{}]. *)
Definition WithHeader (c : client) (k : string) (v : Value) : client :=
  let m := match header c with HNil => [] | HMap m => m end in
  set_header c (HMap (map_add (canon k) (sprint v) m)).

(** The [range] loop of [WithHeaderMap], in the iteration order the
    runtime picked. *)
Fixpoint header_map_loop (h : Header) (kvs : list (string * Value)) : option Header :=
  match kvs with
  | [] => Some h
  | (k, v) :: kvs' =>
      match header_Add h k (sprint v) with
      | None => None
      | Some h' => header_map_loop h' kvs'
      end
  end.

Definition WithHeaderMap (c : client) (kvs : list (string * Value)) : option client :=
  option_map (set_header c) (header_map_loop (header c) kvs).

(** [for i := 0; i < l; i += 2], with enough fuel for every iteration;
    an index out of range would panic (it never is, see
    [WithHeaders_pairs]). *)
Fixpoint headers_loop (fuel i : nat) (l : Z) (kv : list Value) (h : Header)
  : option Header :=
  match fuel with
  | O => Some h
  | S fuel' =>
      if (Z.of_nat i <? l)%Z then
        match nth_error kv i, nth_error kv (i + 1) with
        | Some k, Some v =>
            match header_Add h (sprint k) (sprint v) with
            | Some h' => headers_loop fuel' (i + 2) l kv h'
            | None => None
            end
        | _, _ => None
        end
      else Some h
  end.

Definition WithHeaders (c : client) (kv : list Value) : option client :=
  let l := (Z.of_nat (List.length kv) - 1)%Z in
  match headers_loop (List.length kv) 0 l kv (header c) with
  | None => None
  | Some h =>
      if ((l + 1) mod 2 =? 1)%Z then
        match nth_error kv (Z.to_nat l) with
        | Some k => option_map (set_header c) (header_Add h (sprint k) "")
        | None => None
        end
      else Some (set_header c h)
  end.

Definition WithTimeout (c : client) (t : Z) : client :=
  mkClient (url c) (header c) (body c) (method c) t (err c) (respBody c) (tlsClientConfig c).

Definition WithBody (c : client) (b : BodyArg) : client :=
  match b with
  | BReader (inl e) => set_err c e
  | BReader (inr buf) => set_body c (Some buf)
  | BBytes v => set_body c (Some v)
  | BString v => set_body c (Some v)
  | BOther (inl e) => set_err c e
  | BOther (inr buf) => set_body c (Some buf)
  end.

Definition TLSClientConfig (c : client) (conf : option TLSConfig) : client :=
  mkClient (url c) (header c) (body c) (method c) (timeout c) (err c) (respBody c) conf.

(** The header additions [WithHeaders] is meant to make, read off the
    argument list: consecutive key/value pairs, and a last key without
    value paired with [""]. *)
Fixpoint header_pairs (kv : list Value) : list (string * string) :=
  match kv with
  | [] => []
  | [k] => [(sprint k, "")]
  | k :: v :: kv' => (sprint k, sprint v) :: header_pairs kv'
  end.

(** Adding a list of pairs, in order, to a non-nil header map. *)
Definition add_all (m : list (string * list string)) (ps : list (string * string))
  : list (string * list string) :=
  fold_left (fun m p => map_add (canon (fst p)) (snd p) m) ps m.

End Builders.

(** [time.Duration(t) * time.Second]: an [int64] product, wrapping
    around. *)
Definition wrap64 (z : Z) : Z :=
  ((z + 9223372036854775808) mod 18446744073709551616 - 9223372036854775808)%Z.

Definition second : Z := 1000000000.

(** The method of the request built by [http.NewRequest(method, ...)]:
    an empty method means ["GET"]. *)
Definition request_method (m : string) : string :=
  if String.eqb m "" then MethodGet else m.

(** [Response], given the outcome of [http.NewRequest] ([Some e]: error)
    and the answer of [client.Do] for the request it is handed.  Also
    returns the request handed to [client.Do], if any.  [c.err] is not
    consulted.  The body is dropped when [c.method] is ["GET"], before
    [http.NewRequest] turns an empty method into ["GET"]. *)
Definition Response (newRequest : string -> string -> option error)
           (doReq : Request -> error + HttpResponse) (c : client)
  : client * option Request :=
  let tmo := wrap64 (timeout c * second) in
  let c1 := if String.eqb (method c) MethodGet then set_body c None else c in
  match newRequest (method c1) (url c1) with
  | Some e => (set_err c1 e, None)
  | None =>
      let req := mkRequest (request_method (method c1)) (url c1) (body c1) (header c1) tmo
                           (tlsClientConfig c1) in
      match doReq req with
      | inl e => (set_err c1 e, Some req)
      | inr resp => (set_respBody c1 resp, Some req)
      end
  end.

Section Parse.

(** [jsoniter.Unmarshal] into the (non-nil) target. *)
Context {Data : Type}.
Variable unmarshal : string -> Data -> option error.

(** [ParseDataJson]: the returned error, and whether the deferred
    [Body.Close] ran; [None] is the nil-pointer panic on a missing
    response; [data = None] is a nil interface. *)
Definition ParseDataJson (c : client) (data : option Data) : option (option error * bool) :=
  match err c with
  | Some e => Some (Some e, false)
  | None =>
      match respBody c with
      | None => None
      | Some r =>
          if negb (StatusCode r =? StatusOK)%Z then Some (Some (Status r), true)
          else match data with
               | None => Some (None, true)
               | Some d =>
                   match Body r with
                   | inl e => Some (Some e, true)
                   | inr s => Some (unmarshal s d, true)
                   end
               end
      end
  end.

Definition ParseJson (c : client) (data : option Data) : option (option error * bool) :=
  ParseDataJson c data.

Definition ParseEmpty (c : client) : option (option error * bool) :=
  ParseDataJson c None.

End Parse.

(** [ParseString]: the returned error, whether [Body.Close] ran, and
    the value of [*str] afterwards. *)
Definition ParseString (c : client) (str : string) : option (option error * bool * string) :=
  match err c with
  | Some e => Some (Some e, false, str)
  | None =>
      match respBody c with
      | None => None
      | Some r =>
          if negb (StatusCode r =? StatusOK)%Z then Some (Some (Status r), true, str)
          else match Body r with
               | inl e => Some (Some e, true, str)
               | inr s => Some (None, true, s)
               end
      end
  end.

(** A builder call of a chain; [OResponse] carries the outcomes of
    [http.NewRequest] and [client.Do]. *)
Inductive Op (Value : Type) :=
| OGet (u : string)
| OPost (u : string)
| OHeader (k : string) (v : Value)
| OHeaderMap (kvs : list (string * Value))
| OHeaders (kv : list Value)
| OTimeout (t : Z)
| OBody (b : BodyArg)
| OTLS (conf : option TLSConfig)
| OResponse (newRequest : string -> string -> option error)
            (doReq : Request -> error + HttpResponse).

Arguments OGet {Value} u.
Arguments OPost {Value} u.
Arguments OHeader {Value} k v.
Arguments OHeaderMap {Value} kvs.
Arguments OHeaders {Value} kv.
Arguments OTimeout {Value} t.
Arguments OBody {Value} b.
Arguments OTLS {Value} conf.
Arguments OResponse {Value} newRequest doReq.

Definition run_op {Value} (canon : string -> string) (sprint : Value -> string)
           (op : Op Value) (c : client) : option client :=
  match op with
  | OGet u => Some (Get c u)
  | OPost u => Some (Post c u)
  | OHeader k v => Some (WithHeader canon sprint c k v)
  | OHeaderMap kvs => WithHeaderMap canon sprint c kvs
  | OHeaders kv => WithHeaders canon sprint c kv
  | OTimeout t => Some (WithTimeout c t)
  | OBody b => Some (WithBody c b)
  | OTLS conf => Some (TLSClientConfig c conf)
  | OResponse nr dr => Some (fst (Response nr dr c))
  end.

Fixpoint run_ops {Value} (canon : string -> string) (sprint : Value -> string)
         (ops : list (Op Value)) (c : client) : option client :=
  match ops with
  | [] => Some c
  | op :: ops' =>
      match run_op canon sprint op c with
      | None => None
      | Some c' => run_ops canon sprint ops' c'
      end
  end.

End Client.

(* ================================================================== *)
(** * Properties                                                       *)
(* ================================================================== *)

(** ** Equality deciders *)

Lemma strings_eqb_true (l1 l2 : list string) : strings_eqb l1 l2 = true <-> l1 = l2.
Proof.
  revert l2; induction l1 as [|x l1 IH]; intros [|y l2]; simpl;
    try (split; congruence).
  rewrite andb_true_iff, String.eqb_eq, IH. split.
  - intros [-> ->]; reflexivity.
  - intros H; injection H; auto.
Qed.

Lemma endpoint_eqb_true (e1 e2 : Endpoint) : endpoint_eqb e1 e2 = true <-> e1 = e2.
Proof.
  destruct e1 as [i1 a1 p1 t1], e2 as [i2 a2 p2 t2]; unfold endpoint_eqb; simpl.
  rewrite !andb_true_iff, !String.eqb_eq, Z.eqb_eq, strings_eqb_true. split.
  - intros [[[-> ->] ->] ->]; reflexivity.
  - intros H; injection H; auto.
Qed.

Lemma endpoints_eqb_true (l1 l2 : list Endpoint) : endpoints_eqb l1 l2 = true <-> l1 = l2.
Proof.
  revert l2; induction l1 as [|x l1 IH]; intros [|y l2]; simpl;
    try (split; congruence).
  rewrite andb_true_iff, endpoint_eqb_true, IH. split.
  - intros [-> ->]; reflexivity.
  - intros H; injection H; auto.
Qed.

(** ** The byte-wise order on strings (Go's [<] on strings) *)

Lemma string_compare_OT (s1 s2 : string) :
  String.compare s1 s2 = String_as_OT.compare s1 s2.
Proof.
  revert s2; induction s1 as [|a s1 IH]; intros [|b s2]; simpl; auto.
Qed.

(** [str_le a b]: [a] is not strictly greater than [b]. *)
Definition str_le (a b : string) : Prop := String.compare a b <> Gt.

Lemma str_le_trans (a b c : string) : str_le a b -> str_le b c -> str_le a c.
Proof.
  unfold str_le; intros H1 H2; rewrite string_compare_OT in H1, H2 |- *.
  destruct (String_as_OT.compare_spec a b) as [Hab|Hab|Hab]; [unfold String_as_OT.eq in Hab; subst; exact H2 | | congruence].
  destruct (String_as_OT.compare_spec b c) as [Hbc|Hbc|Hbc]; [unfold String_as_OT.eq in Hbc; subst | | congruence].
  - unfold String_as_OT.lt in Hab; rewrite Hab; discriminate.
  - assert (String_as_OT.lt a c) as Hac by (eapply String_as_OT.lt_strorder; eauto).
    unfold String_as_OT.lt in Hac; rewrite Hac; discriminate.
Qed.

Lemma str_le_antisym (a b : string) : str_le a b -> str_le b a -> a = b.
Proof.
  unfold str_le; rewrite (String.compare_antisym b a).
  destruct (String.compare a b) eqn:E; simpl; try congruence.
  intros _ _; now apply String.compare_eq_iff.
Qed.

Lemma str_ltb_false (a b : string) : String.ltb a b = false -> str_le b a.
Proof.
  unfold String.ltb, str_le; rewrite (String.compare_antisym b a).
  destruct (String.compare a b); simpl; congruence.
Qed.

Lemma str_ltb_true (a b : string) : String.ltb a b = true -> str_le a b.
Proof.
  unfold String.ltb, str_le; destruct (String.compare a b); congruence.
Qed.

(** ** [sort_by_id] is an ID-sorted permutation *)

Definition id_le (a b : Endpoint) : Prop := str_le (ID a) (ID b).

Lemma insert_by_id_perm (x : Endpoint) (l : list Endpoint) :
  Permutation (insert_by_id x l) (x :: l).
Proof.
  induction l as [|y l IH]; simpl; auto.
  destruct (String.ltb (ID x) (ID y)); auto.
  rewrite IH; apply perm_swap.
Qed.

Lemma insert_by_id_sorted (x : Endpoint) (l : list Endpoint) :
  Sorted id_le l -> Sorted id_le (insert_by_id x l).
Proof.
  induction 1 as [|y l Hs IH Hhd]; simpl; auto.
  destruct (String.ltb (ID x) (ID y)) eqn:E.
  - constructor; auto. constructor. now apply str_ltb_true.
  - constructor; auto.
    apply str_ltb_false in E.
    destruct l as [|z l]; simpl.
    + constructor; exact E.
    + inversion Hhd; subst.
      destruct (String.ltb (ID x) (ID z)); constructor; auto.
Qed.

Lemma sort_by_id_spec (l : list Endpoint) :
  Permutation (sort_by_id l) l /\ Sorted id_le (sort_by_id l).
Proof.
  unfold sort_by_id.
  assert (G : forall acc, Sorted id_le acc ->
            Permutation (fold_left (fun acc x => insert_by_id x acc) l acc) (acc ++ l)
            /\ Sorted id_le (fold_left (fun acc x => insert_by_id x acc) l acc)).
  { induction l as [|x l IH]; intros acc Hacc; simpl.
    - rewrite app_nil_r; auto.
    - destruct (IH (insert_by_id x acc) (insert_by_id_sorted x acc Hacc)) as [P S].
      split; auto.
      rewrite P, insert_by_id_perm. simpl.
      apply Permutation_cons_app; reflexivity. }
  destruct (G [] (Sorted_nil _)) as [P S]; auto.
Qed.

Lemma sort_by_id_perm (l : list Endpoint) : Permutation (sort_by_id l) l.
Proof. apply sort_by_id_spec. Qed.

Lemma sort_by_id_sorted (l : list Endpoint) : Sorted id_le (sort_by_id l).
Proof. apply sort_by_id_spec. Qed.

(** Two ID-sorted permutations of a list with pairwise distinct IDs are
    equal. *)
Lemma sorted_perm_unique (l1 l2 : list Endpoint) :
  Sorted id_le l1 -> Sorted id_le l2 -> Permutation l1 l2 ->
  NoDup (map ID l1) -> l1 = l2.
Proof.
  intros S1 S2; apply Sorted_StronglySorted in S1;
    [|intros a b c; apply str_le_trans].
  apply Sorted_StronglySorted in S2; [|intros a b c; apply str_le_trans].
  revert l2 S2; induction S1 as [|a l1 S1 IH F1]; intros l2 S2 P ND.
  - now apply Permutation_nil in P.
  - destruct l2 as [|b l2]; [apply Permutation_sym, Permutation_nil_cons in P; contradiction|].
    inversion S2 as [|? ? S2' F2]; subst.
    simpl in ND; inversion ND as [|? ? Ha ND']; subst.
    destruct (String.eqb_spec (ID a) (ID b)) as [Eab|Nab].
    + assert (a = b) as <-.
      { destruct (Permutation_in b (Permutation_sym P) (or_introl eq_refl))
          as [Hba|Hb]; [exact Hba|].
        exfalso; apply Ha; rewrite Eab; now apply in_map. }
      f_equal. apply IH; auto. eapply Permutation_cons_inv; eauto.
    + exfalso.
      assert (Ha2 : In a l2).
      { destruct (Permutation_in a P (or_introl eq_refl)) as [->|?]; auto; congruence. }
      assert (Hb1 : In b l1).
      { destruct (Permutation_in b (Permutation_sym P) (or_introl eq_refl)) as [->|?]; auto; congruence. }
      rewrite Forall_forall in F1, F2.
      apply Nab, str_le_antisym; [apply F1 | apply F2]; auto.
Qed.

Lemma sort_by_id_unique (l1 l2 : list Endpoint) :
  Permutation l1 l2 -> NoDup (map ID l1) -> sort_by_id l1 = sort_by_id l2.
Proof.
  intros P ND. apply sorted_perm_unique; try apply sort_by_id_sorted.
  - rewrite !sort_by_id_perm; exact P.
  - eapply Permutation_NoDup; [|exact ND]. apply Permutation_map.
    symmetry; apply sort_by_id_perm.
Qed.

(** ** [checkClusterChanged] *)

Definition same_sorted (c1 c2 : Cluster) : Prop :=
  sort_by_id (Endpoints c1) = sort_by_id (Endpoints c2).

Lemma check_cluster_loop_false (new last : list Cluster) :
  List.length new = List.length last ->
  (fst (fst (check_cluster_loop new last)) = false <-> Forall2 same_sorted new last).
Proof.
  revert last; induction new as [|c1 new IH]; intros [|c2 last] Hlen; simpl in *;
    try discriminate.
  - split; auto.
  - unfold same_sorted at 1; simpl.
    destruct (endpoints_eqb (sort_by_id (Endpoints c1)) (sort_by_id (Endpoints c2))) eqn:E;
      simpl.
    + apply endpoints_eqb_true in E.
      destruct (check_cluster_loop new last) as [[b n''] l''] eqn:L; simpl.
      specialize (IH last ltac:(lia)); rewrite L in IH; simpl in IH.
      rewrite IH. split; [intros; constructor; auto | intros H; inversion H; auto].
    + split; [discriminate|]. intros H; inversion H as [|? ? ? ? Hs _]; subst.
      unfold same_sorted in Hs; rewrite Hs in E.
      rewrite (proj2 (endpoints_eqb_true _ _) eq_refl) in E; discriminate.
Qed.

Lemma cluster_changed_false_iff (new last : list Cluster) :
  cluster_changed new last = false <-> Forall2 same_sorted new last.
Proof.
  unfold cluster_changed, checkClusterChanged.
  destruct (Nat.eqb_spec (List.length new) (List.length last)) as [E|E]; simpl.
  - now apply check_cluster_loop_false.
  - split; [discriminate|]. intros H; apply Forall2_length in H; contradiction.
Qed.

Lemma Forall2_nth_error_rel {A B} (R : A -> B -> Prop) (l1 : list A) (l2 : list B) k x y :
  Forall2 R l1 l2 -> nth_error l1 k = Some x -> nth_error l2 k = Some y -> R x y.
Proof.
  intros H; revert k; induction H as [|a b l1 l2 Hab _ IH]; intros [|k]; simpl.
  - discriminate.
  - discriminate.
  - intros H1 H2; injection H1 as <-; injection H2 as <-; exact Hab.
  - apply IH.
Qed.

Lemma same_sorted_perm (c1 c2 : Cluster) :
  same_sorted c1 c2 -> Permutation (Endpoints c1) (Endpoints c2).
Proof.
  unfold same_sorted; intros H.
  rewrite <- (sort_by_id_perm (Endpoints c1)), <- (sort_by_id_perm (Endpoints c2)), H.
  reflexivity.
Qed.

Lemma perm_one_replaced (pre post : list Endpoint) (e e' : Endpoint) :
  Permutation (pre ++ e' :: post) (pre ++ e :: post) -> e' = e.
Proof.
  intros P. apply Permutation_app_inv_l in P.
  assert (P2 : Permutation (post ++ [e']) (post ++ [e])).
  { rewrite <- !Permutation_cons_append. exact P. }
  apply Permutation_app_inv_l, Permutation_length_1 in P2. exact P2.
Qed.

(** The value sent and persisted by a watcher iteration whose passing set
    changed. *)
Lemma watchService_step_diff ps env status dc st cyc services idx :
  health cyc = Some (services, idx) ->
  checkCheckersEqual (oldCheckers st) (ps (List.concat services) status) = false ->
  watchService_step ps env status dc st cyc =
    (mkWatchState idx (ps (List.concat services) status)
       (snd (fst (checkClusterChanged
                    (servicesConfig env (catalog cyc) (ps (List.concat services) status) dc (order cyc))
                    (lastConfig st)))),
     if cluster_changed
          (servicesConfig env (catalog cyc) (ps (List.concat services) status) dc (order cyc))
          (lastConfig st)
     then Some (snd (fst (checkClusterChanged
                    (servicesConfig env (catalog cyc) (ps (List.concat services) status) dc (order cyc))
                    (lastConfig st))))
     else None,
     catalog_calls (ps (List.concat services) status) (order cyc)).
Proof.
  intros H1 H2; unfold watchService_step, cluster_changed; rewrite H1; cbv zeta.
  rewrite H2.
  destruct (checkClusterChanged _ _) as [[b n'] l']; reflexivity.
Qed.

(** The value sent and persisted by an aggregator iteration that
    received a value. *)
Lemma watchServices_step_recv service st i v :
  nth i (active st) false = true ->
  watchServices_step service st (Recv i v) =
    Some (mkAggState (active st) (update_nth i v (slots st))
            (snd (fst (checkClusterChanged (merge_slots service (update_nth i v (slots st)))
                                           (lastResult st)))),
          if cluster_changed (merge_slots service (update_nth i v (slots st))) (lastResult st)
          then Some (snd (fst (checkClusterChanged
                                 (merge_slots service (update_nth i v (slots st)))
                                 (lastResult st))))
          else None).
Proof.
  intros H; unfold watchServices_step, cluster_changed; rewrite H; cbv zeta.
  destruct (checkClusterChanged _ _) as [[b n'] l']; reflexivity.
Qed.

(** ** C2: cluster-diff suppression *)

(** C2 (amended).  [checkClusterChanged] reports "no change" exactly when
    both lists have the same number of clusters and every positional pair
    has equal endpoint lists once each is sorted by ID; a watcher
    iteration that built a new list, and every aggregator iteration that
    received a value, send that list iff a change is reported and persist
    it either way; re-feeding the same list with each cluster's endpoints
    permuted reports no change provided the endpoint IDs of each cluster
    are pairwise distinct; replacing one endpoint by a different one
    (different ID, Addr, Port or Tags) always reports a change. *)
Theorem cluster_diff_suppression :
  (forall new last,
      cluster_changed new last = false <-> Forall2 same_sorted new last)
  /\ (forall ps env status dc st cyc services idx,
        health cyc = Some (services, idx) ->
        checkCheckersEqual (oldCheckers st) (ps (List.concat services) status) = false ->
        let newConfig :=
          servicesConfig env (catalog cyc) (ps (List.concat services) status) dc (order cyc) in
        let persisted := snd (fst (checkClusterChanged newConfig (lastConfig st))) in
        lastConfig (fst (fst (watchService_step ps env status dc st cyc))) = persisted
        /\ snd (fst (watchService_step ps env status dc st cyc)) =
             if cluster_changed newConfig (lastConfig st) then Some persisted else None)
  /\ (forall service st i v,
        nth i (active st) false = true ->
        let result := merge_slots service (update_nth i v (slots st)) in
        let persisted := snd (fst (checkClusterChanged result (lastResult st))) in
        exists st',
          watchServices_step service st (Recv i v) =
            Some (st', if cluster_changed result (lastResult st) then Some persisted else None)
          /\ lastResult st' = persisted)
  /\ (forall new last,
        Forall2 (fun c1 c2 => Permutation (Endpoints c1) (Endpoints c2)
                              /\ NoDup (map ID (Endpoints c1))) new last ->
        cluster_changed new last = false)
  /\ (forall new last k c1 c2 pre post e e',
        List.length new = List.length last ->
        nth_error new k = Some c1 -> nth_error last k = Some c2 ->
        Endpoints c1 = pre ++ e' :: post -> Endpoints c2 = pre ++ e :: post ->
        e' <> e ->
        cluster_changed new last = true).
Proof.
  split; [exact cluster_changed_false_iff|].
  split.
  { intros ps env status dc st cyc services idx H1 H2; cbv zeta.
    rewrite (watchService_step_diff ps env status dc st cyc services idx H1 H2).
    split; reflexivity. }
  split.
  { intros service st i v H; cbv zeta.
    rewrite (watchServices_step_recv service st i v H).
    eexists; split; [reflexivity | reflexivity]. }
  split.
  { intros new last H. apply cluster_changed_false_iff.
    eapply Forall2_impl; [|exact H].
    intros c1 c2 [P ND]. unfold same_sorted. now apply sort_by_id_unique. }
  intros new last k c1 c2 pre post e e' _ N1 N2 E1 E2 Ne.
  destruct (cluster_changed new last) eqn:C; [reflexivity|exfalso].
  apply cluster_changed_false_iff in C.
  pose proof (same_sorted_perm c1 c2 (Forall2_nth_error_rel _ _ _ k c1 c2 C N1 N2)) as P.
  rewrite E1, E2 in P. apply Ne. eapply perm_one_replaced; exact P.
Qed.

Definition ep_i1_a : Endpoint := mkEndpoint "i1" "10.0.0.1" 8080 ["dc=us"].
Definition ep_i1_b : Endpoint := mkEndpoint "i1" "10.0.0.2" 8080 ["dc=eu"].

(** C2 counterexample: the aggregator receives a cluster list, then the
    same list with the two endpoints swapped; both endpoints carry ID
    ["i1"] (one service ID registered in two datacenters or on two
    nodes).  Sorting by ID keeps their order, the lists compare unequal,
    and the second value is emitted too. *)
Lemma cluster_diff_refeed_emits_again :
  Permutation [ep_i1_a; ep_i1_b] [ep_i1_b; ep_i1_a] /\
  match watchServices_step "orders" (agg_init 1)
          (Recv 0 [mkCluster "orders" [ep_i1_a; ep_i1_b]]) with
  | Some (st1, Some _) =>
      match watchServices_step "orders" st1
              (Recv 0 [mkCluster "orders" [ep_i1_b; ep_i1_a]]) with
      | Some (_, Some _) => True
      | _ => False
      end
  | _ => False
  end.
Proof. split; [apply perm_swap | vm_compute; exact I]. Qed.

(** ** C9: which lists end up ID-sorted *)




Definition ep_b : Endpoint := mkEndpoint "b" "10.0.0.2" 8080 ["dc=us"].
Definition ep_a : Endpoint := mkEndpoint "a" "10.0.0.1" 8080 ["dc=us"].


(** ** C1: the merged cluster *)

(** The endpoints a slot contributes: those of its first cluster. *)
Definition first_cluster_endpoints (s : list Cluster) : list Endpoint :=
  match s with
  | c :: _ => Endpoints c
  | [] => []
  end.

Lemma merge_slots_concat (service : string) (sl : list (list Cluster)) :
  merge_slots service sl =
    [mkCluster service (List.concat (map first_cluster_endpoints sl))].
Proof.
  unfold merge_slots. f_equal. f_equal.
  assert (G : forall acc,
             fold_left (fun acc s =>
                          match s with
                          | c :: _ => if negb (Nat.eqb (List.length (Endpoints c)) 0)
                                      then acc ++ Endpoints c else acc
                          | [] => acc
                          end) sl acc
             = acc ++ List.concat (map first_cluster_endpoints sl)).
  { induction sl as [|s sl IH]; intros acc; simpl.
    - now rewrite app_nil_r.
    - rewrite IH. destruct s as [|c s]; simpl; [reflexivity|].
      destruct (Endpoints c) as [|e es]; simpl; [reflexivity|].
      now rewrite <- app_assoc. }
  apply G.
Qed.

(** C1 (amended).  When the aggregator receives value [v] from datacenter
    [i], it stores [v] in slot [i] and builds one cluster named [service]
    whose endpoints are the concatenation, in datacenter order, of the
    endpoints of the FIRST cluster of each slot (a slot with no cluster,
    or whose first cluster has no endpoint, contributes nothing; clusters
    after the first one of a slot contribute nothing); this built list is
    what [checkClusterChanged] compares with the previous result and what
    is persisted (as left by the comparison) and possibly sent. *)
Theorem aggregator_merge :
  forall service st i v,
    nth i (active st) false = true ->
    exists st' out,
      watchServices_step service st (Recv i v) = Some (st', out)
      /\ slots st' = update_nth i v (slots st)
      /\ merge_slots service (slots st') =
           [mkCluster service (List.concat (map first_cluster_endpoints (slots st')))]
      /\ lastResult st' =
           snd (fst (checkClusterChanged
                       [mkCluster service (List.concat (map first_cluster_endpoints (slots st')))]
                       (lastResult st))).
Proof.
  intros service st i v H.
  rewrite (watchServices_step_recv service st i v H).
  do 2 eexists; split; [reflexivity|]; simpl.
  split; [reflexivity|].
  rewrite merge_slots_concat; split; reflexivity.
Qed.

(** C1 counterexample: the slot of the only datacenter holds two
    clusters, the first one empty (a check without service name) and the
    second one with endpoint ["a"]; the merged cluster is empty although
    the slot's cluster list holds an endpoint. *)
Lemma merge_ignores_later_clusters :
  match watchServices_step "orders" (agg_init 1)
          (Recv 0 [mkCluster "" []; mkCluster "orders" [ep_a]]) with
  | Some (st', Some [c]) =>
      Endpoints c = [] /\ List.concat (map Endpoints (nth 0 (slots st') [])) = [ep_a]
  | _ => False
  end.
Proof. vm_compute. split; reflexivity. Qed.

(** ** C7: closed datacenter channels *)

Lemma nth_update_nth_same {A} (l : list A) (i : nat) (d : A) :
  nth i (update_nth i d l) d = d.
Proof.
  revert i; induction l as [|x l IH]; intros [|i]; simpl; auto.
Qed.

Lemma nth_update_nth_other {A} (l : list A) (i j : nat) (x d : A) :
  j <> i -> nth j (update_nth i x l) d = nth j l d.
Proof.
  revert i j; induction l as [|y l IH]; intros [|i] [|j] H; simpl; auto; try lia;
    apply IH; lia.
Qed.

Lemma closed_stays_closed (service : string) (st st' : AggState) (ev : Event)
      (out : option (list Cluster)) (i : nat) :
  watchServices_step service st ev = Some (st', out) ->
  nth i (active st) false = false -> nth i (active st') false = false.
Proof.
  intros E H; destruct ev as [j v|j]; simpl in E.
  - destruct (nth j (active st) false); [|discriminate].
    destruct (checkClusterChanged _ _) as [[b r'] l'].
    injection E as <- _; exact H.
  - destruct (nth j (active st) false); [|discriminate].
    injection E as <- _; simpl.
    destruct (PeanoNat.Nat.eq_dec i j) as [->|N].
    + apply nth_update_nth_same.
    + rewrite nth_update_nth_other; auto.
Qed.

(** C7.  Closing channel [i] only marks it inactive: no value is sent,
    the slots and the last result are kept, the other channels keep
    their status; the channel is never selected again; every other
    active channel can still deliver, and a value it delivers is handled
    exactly as it would have been before the close (same state update,
    emission iff the merged view changed).  The loop has no exit. *)
Theorem closed_domain_resilience :
  forall service st i,
    nth i (active st) false = true ->
    exists st',
      watchServices_step service st (Closed i) = Some (st', None)
      /\ nth i (active st') false = false
      /\ slots st' = slots st /\ lastResult st' = lastResult st
      /\ (forall j, j <> i -> nth j (active st') false = nth j (active st) false)
      /\ (forall ev st'' out, watchServices_step service st' ev = Some (st'', out) ->
            nth i (active st'') false = false)
      /\ (forall j v, j <> i ->
            watchServices_step service st' (Recv j v) =
              option_map (fun p => (mkAggState (active st') (slots (fst p)) (lastResult (fst p)),
                                    snd p))
                         (watchServices_step service st (Recv j v)))
      /\ (forall j v, nth j (active st') false = true ->
            exists st'',
              watchServices_step service st' (Recv j v) =
                Some (st'',
                      if cluster_changed (merge_slots service (update_nth j v (slots st')))
                                         (lastResult st')
                      then Some (snd (fst (checkClusterChanged
                                             (merge_slots service (update_nth j v (slots st')))
                                             (lastResult st'))))
                      else None)).
Proof.
  intros service st i H.
  exists (mkAggState (update_nth i false (active st)) (slots st) (lastResult st)).
  split; [simpl; rewrite H; reflexivity|].
  split; [apply nth_update_nth_same|].
  split; [reflexivity|]. split; [reflexivity|].
  split; [intros j Nj; apply nth_update_nth_other; exact Nj|].
  split.
  { intros ev st'' out E. eapply closed_stays_closed; [exact E|apply nth_update_nth_same]. }
  split.
  { intros j v Nj. unfold watchServices_step; simpl.
    rewrite (nth_update_nth_other (active st) i j false false Nj).
    destruct (nth j (active st) false); [|reflexivity].
    destruct (checkClusterChanged _ _) as [[b r'] l']; reflexivity. }
  intros j v Hj. rewrite (watchServices_step_recv service _ j v Hj).
  eexists; reflexivity.
Qed.

(** ** C3: passing-set suppression *)

(** The field-wise match used by [checkIn]. *)
Definition hc_match (j h : ApiHealth.HealthCheck) : Prop :=
  ApiHealth.Node j = ApiHealth.Node h /\ ApiHealth.CheckID j = ApiHealth.CheckID h /\
  ApiHealth.Name j = ApiHealth.Name h /\ ApiHealth.Status j = ApiHealth.Status h /\
  ApiHealth.ServiceID j = ApiHealth.ServiceID h /\
  ApiHealth.ServiceName j = ApiHealth.ServiceName h /\
  ApiHealth.ServiceTags j = ApiHealth.ServiceTags h.

Lemma check_match_true (j h : ApiHealth.HealthCheck) :
  check_match j h = true <-> hc_match j h.
Proof.
  unfold check_match, hc_match.
  rewrite !andb_true_iff, !String.eqb_eq, strings_eqb_true. tauto.
Qed.

Lemma checkIn_true (h1 h2 : list ApiHealth.HealthCheck) :
  checkIn h1 h2 = true <-> forall h, In h h1 -> exists j, In j h2 /\ hc_match j h.
Proof.
  unfold checkIn; rewrite forallb_forall. split.
  - intros H h Hh. apply H, existsb_exists in Hh as [j [Hj M]].
    exists j; split; [exact Hj | now apply check_match_true].
  - intros H h Hh. apply existsb_exists. destruct (H h Hh) as [j [Hj M]].
    exists j; split; [exact Hj | now apply check_match_true].
Qed.

(** C3.  [checkCheckersEqual old new] holds iff every record of each
    list has a field-wise match (Node, CheckID, Name, Status, ServiceID,
    ServiceName, and the ServiceTags as sequences) in the other; when it
    holds for the new passing set, the iteration only records the new
    cursor: nothing is sent, the catalog is not queried, the last
    passing set and last cluster set are kept. *)
Theorem passing_set_suppression :
  (forall old new,
      checkCheckersEqual old new = true <->
      (forall h, In h old -> exists j, In j new /\ hc_match j h) /\
      (forall h, In h new -> exists j, In j old /\ hc_match j h))
  /\ (forall ps env status dc st cyc services idx,
        health cyc = Some (services, idx) ->
        checkCheckersEqual (oldCheckers st) (ps (List.concat services) status) = true ->
        watchService_step ps env status dc st cyc =
          (mkWatchState idx (oldCheckers st) (lastConfig st), None, [])).
Proof.
  split.
  - intros old new. unfold checkCheckersEqual.
    rewrite andb_true_iff, !checkIn_true. tauto.
  - intros ps env status dc st cyc services idx H1 H2.
    unfold watchService_step; rewrite H1; cbv zeta; rewrite H2; reflexivity.
Qed.

(** ** C4: the watch cursor *)

(** C4 (amended).  A successful fetch sets the cursor to exactly the
    index returned by the registry, whatever else the iteration does; a
    failed fetch leaves the whole state unchanged, sends nothing and
    queries no catalog.  The code adds no ordering check of its own. *)
Theorem cursor_follows_registry :
  (forall ps env status dc st cyc,
      lastIndex (fst (fst (watchService_step ps env status dc st cyc))) =
        match health cyc with
        | Some (_, idx) => idx
        | None => lastIndex st
        end)
  /\ (forall ps env status dc st cyc,
        health cyc = None -> watchService_step ps env status dc st cyc = (st, None, []))
  /\ (forall ps env status dc st cyc,
        wait_index (fst (fst (watchService_step ps env status dc st cyc))) =
          lastIndex (fst (fst (watchService_step ps env status dc st cyc)))).
Proof.
  split; [|split; [|reflexivity]].
  - intros ps env status dc st cyc; unfold watchService_step.
    destruct (health cyc) as [[services idx]|]; [|reflexivity]; cbv zeta.
    destruct (checkCheckersEqual _ _); [reflexivity|].
    destruct (checkClusterChanged _ _) as [[b n'] l']; reflexivity.
  - intros ps env status dc st cyc H; unfold watchService_step; rewrite H; reflexivity.
Qed.

Definition no_catalog : CatalogAPI := fun _ _ => None.

Definition fetch_at (idx : N) : Cycle := mkCycle (Some ([], idx)) no_catalog [].

(** C4 counterexample: two successful fetches whose registry answers
    carry the indexes 7 and then 3 (Consul resets its index, e.g. after a
    snapshot restore): the cursor goes from 7 back to 3, so it neither
    advances nor stays non-decreasing. *)
Lemma cursor_goes_back :
  let ps := fun (_ : list ApiHealth.HealthCheck) (_ : list string) => @nil ApiHealth.HealthCheck in
  let st1 := fst (fst (watchService_step ps "env" ["passing"] "us" watch_init (fetch_at 7))) in
  let st2 := fst (fst (watchService_step ps "env" ["passing"] "us" st1 (fetch_at 3))) in
  lastIndex st1 = 7%N /\ lastIndex st2 = 3%N.
Proof. vm_compute. split; reflexivity. Qed.

(** ** C5: catalog failures and the environment tag *)

Lemma serviceConfig_name env catalog name passing dc :
  Name (serviceConfig env catalog name passing dc) = name.
Proof.
  unfold serviceConfig. destruct (negb _); [reflexivity|].
  destruct (catalog name dc); reflexivity.
Qed.




(** ** C6: endpoint construction *)

Lemma insert_string_perm (x : string) (l : list string) :
  Permutation (insert_string x l) (x :: l).
Proof.
  induction l as [|y l IH]; simpl; auto.
  destruct (String.ltb x y); auto.
  rewrite IH; apply perm_swap.
Qed.

Lemma insert_string_sorted (x : string) (l : list string) :
  Sorted str_le l -> Sorted str_le (insert_string x l).
Proof.
  induction 1 as [|y l Hs IH Hhd]; simpl; auto.
  destruct (String.ltb x y) eqn:E.
  - constructor; auto. constructor. now apply str_ltb_true.
  - constructor; auto.
    apply str_ltb_false in E.
    destruct l as [|z l]; simpl.
    + constructor; exact E.
    + inversion Hhd; subst.
      destruct (String.ltb x z); constructor; auto.
Qed.

Lemma sort_strings_spec (l : list string) :
  Permutation (sort_strings l) l /\ Sorted str_le (sort_strings l).
Proof.
  unfold sort_strings.
  assert (G : forall acc, Sorted str_le acc ->
            Permutation (fold_left (fun acc x => insert_string x acc) l acc) (acc ++ l)
            /\ Sorted str_le (fold_left (fun acc x => insert_string x acc) l acc)).
  { induction l as [|x l IH]; intros acc Hacc; simpl.
    - rewrite app_nil_r; auto.
    - destruct (IH (insert_string x acc) (insert_string_sorted x acc Hacc)) as [P S].
      split; auto.
      rewrite P, insert_string_perm. simpl.
      apply Permutation_cons_app; reflexivity. }
  destruct (G [] (Sorted_nil _)) as [P S]; auto.
Qed.

Lemma in_passing_In (passing : list string) (id : string) :
  in_passing passing id = true <-> In id passing.
Proof.
  unfold in_passing; rewrite existsb_exists. split.
  - intros [x [Hx E]]. apply String.eqb_eq in E; subst; exact Hx.
  - intros H; exists id; split; [exact H | apply String.eqb_refl].
Qed.

(** C6.  The endpoint loop keeps, in catalog order, exactly the
    instances whose ServiceID is in the passing set, and builds for each
    one the endpoint whose ID is the ServiceID, Port the ServicePort,
    Addr the ServiceAddress or, when that is the empty string, the node
    Address, and Tags the instance's tags plus ["dc=" ++ Datacenter],
    sorted (byte-wise order, as Go's [sort.Strings]). *)
Theorem endpoint_construction :
  (forall passing svcs,
      build_endpoints passing svcs =
        map mk_endpoint
            (filter (fun svc => in_passing passing (ApiCatalog.ServiceID svc)) svcs))
  /\ (forall passing id, in_passing passing id = true <-> In id passing)
  /\ (forall svc,
        ID (mk_endpoint svc) = ApiCatalog.ServiceID svc
        /\ Port (mk_endpoint svc) = ApiCatalog.ServicePort svc
        /\ (ApiCatalog.ServiceAddress svc = "" -> Addr (mk_endpoint svc) = ApiCatalog.Address svc)
        /\ (ApiCatalog.ServiceAddress svc <> "" ->
              Addr (mk_endpoint svc) = ApiCatalog.ServiceAddress svc)
        /\ Tags (mk_endpoint svc) =
             sort_strings (ApiCatalog.ServiceTags svc ++
                           [("dc=" ++ ApiCatalog.Datacenter svc)%string])
        /\ Permutation (Tags (mk_endpoint svc))
                       (ApiCatalog.ServiceTags svc ++
                        [("dc=" ++ ApiCatalog.Datacenter svc)%string])
        /\ Sorted str_le (Tags (mk_endpoint svc))).
Proof.
  split.
  { intros passing svcs; induction svcs as [|svc svcs IH]; simpl; auto.
    destruct (in_passing passing (ApiCatalog.ServiceID svc)); simpl; congruence. }
  split; [exact in_passing_In|].
  intros svc. unfold mk_endpoint; simpl.
  split; [reflexivity|]. split; [reflexivity|].
  split; [intros E; rewrite E; reflexivity|].
  split; [intros N; apply String.eqb_neq in N; rewrite N; reflexivity|].
  split; [reflexivity|]. apply sort_strings_spec.
Qed.

(** ** C8: the cluster diff depends on map iteration order *)

Definition hc_orders_i1 : ApiHealth.HealthCheck :=
  ApiHealth.mkHealthCheck "node1" "service:i1" "Service 'orders' check" "passing"
                          "i1" "orders" [].
Definition hc_serf : ApiHealth.HealthCheck :=
  ApiHealth.mkHealthCheck "node1" "serfHealth" "Serf Health Status" "passing" "" "" [].

Definition svc_orders_i1 : ApiCatalog.CatalogService :=
  ApiCatalog.mkCatalogService "10.0.0.9" "us" "i1" "10.0.0.1" 8080 [].

Definition catalog_orders : CatalogAPI :=
  fun name _ => if String.eqb name "orders" then Some [svc_orders_i1] else None.

(** C8.  One passing set, grouped by [servicesConfig] under the two
    iteration orders Go's map may produce, gives two lists holding the
    same clusters in swapped positions; [checkClusterChanged] compares
    them positionally and reports a change. *)
Theorem cluster_diff_order_sensitive :
  exists checks order1 order2,
    valid_order checks order1 /\ valid_order checks order2 /\
    Permutation (servicesConfig "env=prod" catalog_orders checks "us" order1)
                (servicesConfig "env=prod" catalog_orders checks "us" order2) /\
    servicesConfig "env=prod" catalog_orders checks "us" order1 <>
    servicesConfig "env=prod" catalog_orders checks "us" order2 /\
    cluster_changed (servicesConfig "env=prod" catalog_orders checks "us" order1)
                    (servicesConfig "env=prod" catalog_orders checks "us" order2) = true.
Proof.
  exists [hc_orders_i1; hc_serf], ["orders"; ""], [""; "orders"].
  unfold valid_order. vm_compute.
  split; [reflexivity|]. split; [apply perm_swap|].
  split; [apply perm_swap|]. split; [discriminate|reflexivity].
Qed.

(** ** C10: no emission while the passing set stays empty *)

Lemma watch_run_empty_passing ps env status dc (cycles : list Cycle) :
  (forall cyc services idx, In cyc cycles -> health cyc = Some (services, idx) ->
     ps (List.concat services) status = []) ->
  forall st, oldCheckers st = [] ->
  snd (fst (watch_run ps env status dc st cycles)) = [] /\
  snd (watch_run ps env status dc st cycles) = [] /\
  oldCheckers (fst (fst (watch_run ps env status dc st cycles))) = [].
Proof.
  induction cycles as [|cyc cycles IH]; intros Hps st Hst; simpl; auto.
  assert (Hstep : exists st1, watchService_step ps env status dc st cyc = (st1, None, [])
                              /\ oldCheckers st1 = []).
  { unfold watchService_step.
    destruct (health cyc) as [[services idx]|] eqn:H.
    - cbv zeta. rewrite (Hps cyc services idx (or_introl eq_refl) H), Hst.
      eexists; split; reflexivity.
    - eexists; split; [reflexivity|exact Hst]. }
  destruct Hstep as [st1 [-> Hst1]].
  destruct (IH (fun c s i Hin => Hps c s i (or_intror Hin)) st1 Hst1) as [A [B C]].
  destruct (watch_run ps env status dc st1 cycles) as [[st2 outs] calls'].
  simpl in *; subst; auto.
Qed.

(** C10.  If every successful fetch of a run yields an empty passing set,
    the watcher started in its initial state sends nothing and queries no
    catalog: the empty passing set always matches the (initially empty)
    last passing set. *)
Theorem no_emission_for_empty_service :
  forall ps env status dc (cycles : list Cycle),
    (forall cyc services idx, In cyc cycles -> health cyc = Some (services, idx) ->
       ps (List.concat services) status = []) ->
    snd (fst (watch_run ps env status dc watch_init cycles)) = [] /\
    snd (watch_run ps env status dc watch_init cycles) = [].
Proof.
  intros ps env status dc cycles H.
  destruct (watch_run_empty_passing ps env status dc cycles H watch_init eq_refl) as [A [B _]].
  split; assumption.
Qed.

(* ------------------------------------------------------------------ *)
(** ** Witnesses: the theorems applied at concrete inputs              *)

Definition cyc_orders : Cycle :=
  mkCycle (Some ([[hc_orders_i1]], 12%N)) catalog_orders ["orders"].

Lemma aggregator_merge_witness :
  nth 0 (active (agg_init 2)) false = true /\
  exists st' out,
    watchServices_step "orders" (agg_init 2) (Recv 0 [mkCluster "orders" [ep_a]]) = Some (st', out)
    /\ slots st' = update_nth 0 [mkCluster "orders" [ep_a]] (slots (agg_init 2))
    /\ merge_slots "orders" (slots st') =
         [mkCluster "orders" (List.concat (map first_cluster_endpoints (slots st')))]
    /\ lastResult st' =
         snd (fst (checkClusterChanged
                     [mkCluster "orders" (List.concat (map first_cluster_endpoints (slots st')))]
                     (lastResult (agg_init 2)))).
Proof.
  split; [reflexivity|].
  apply (aggregator_merge "orders" (agg_init 2) 0 [mkCluster "orders" [ep_a]]).
  reflexivity.
Defined.

Lemma cluster_diff_suppression_witness :
  List.length [mkCluster "orders" [ep_a]] = List.length [mkCluster "orders" [ep_b]] /\
  cluster_changed [mkCluster "orders" [ep_a]] [mkCluster "orders" [ep_b]] = true.
Proof.
  split; [reflexivity|].
  apply (proj2 (proj2 (proj2 (proj2 cluster_diff_suppression)))
           [mkCluster "orders" [ep_a]] [mkCluster "orders" [ep_b]] 0
           (mkCluster "orders" [ep_a]) (mkCluster "orders" [ep_b]) [] [] ep_b ep_a);
    try reflexivity.
  discriminate.
Defined.

Lemma passing_set_suppression_witness :
  checkCheckersEqual [hc_orders_i1] [hc_orders_i1] = true /\
  watchService_step (fun _ _ => [hc_orders_i1]) "env=prod" ["passing"] "us"
    (mkWatchState 5 [hc_orders_i1] []) cyc_orders =
    (mkWatchState 12 [hc_orders_i1] [], None, []).
Proof.
  split; [reflexivity|].
  apply (proj2 passing_set_suppression (fun _ _ => [hc_orders_i1]) "env=prod" ["passing"] "us"
           (mkWatchState 5 [hc_orders_i1] []) cyc_orders [[hc_orders_i1]] 12%N);
    reflexivity.
Defined.

Lemma cursor_follows_registry_witness :
  health (mkCycle None no_catalog []) = None /\
  watchService_step (fun _ _ => []) "env=prod" ["passing"] "us"
    (mkWatchState 5 [] []) (mkCycle None no_catalog []) = (mkWatchState 5 [] [], None, []).
Proof.
  split; [reflexivity|].
  apply (proj1 (proj2 cursor_follows_registry) (fun _ _ => []) "env=prod" ["passing"] "us"
           (mkWatchState 5 [] []) (mkCycle None no_catalog [])).
  reflexivity.
Defined.


Lemma endpoint_construction_witness :
  ApiCatalog.ServiceAddress svc_orders_i1 <> "" /\
  Addr (mk_endpoint svc_orders_i1) = ApiCatalog.ServiceAddress svc_orders_i1.
Proof.
  split; [discriminate|].
  apply (proj1 (proj2 (proj2 (proj2 (proj2 (proj2 endpoint_construction) svc_orders_i1))))).
  discriminate.
Defined.

Lemma closed_domain_resilience_witness :
  nth 0 (active (agg_init 2)) false = true /\
  exists st',
    watchServices_step "orders" (agg_init 2) (Closed 0) = Some (st', None)
    /\ nth 0 (active st') false = false
    /\ slots st' = slots (agg_init 2) /\ lastResult st' = lastResult (agg_init 2)
    /\ (forall j, j <> 0 -> nth j (active st') false = nth j (active (agg_init 2)) false)
    /\ (forall ev st'' out, watchServices_step "orders" st' ev = Some (st'', out) ->
          nth 0 (active st'') false = false)
    /\ (forall j v, j <> 0 ->
          watchServices_step "orders" st' (Recv j v) =
            option_map (fun p => (mkAggState (active st') (slots (fst p)) (lastResult (fst p)),
                                  snd p))
                       (watchServices_step "orders" (agg_init 2) (Recv j v)))
    /\ (forall j v, nth j (active st') false = true ->
          exists st'',
            watchServices_step "orders" st' (Recv j v) =
              Some (st'',
                    if cluster_changed (merge_slots "orders" (update_nth j v (slots st')))
                                       (lastResult st')
                    then Some (snd (fst (checkClusterChanged
                                           (merge_slots "orders" (update_nth j v (slots st')))
                                           (lastResult st'))))
                    else None)).
Proof.
  split; [reflexivity|].
  apply (closed_domain_resilience "orders" (agg_init 2) 0). reflexivity.
Defined.


Lemma no_emission_for_empty_service_witness :
  (forall cyc services idx, In cyc [cyc_orders; mkCycle None no_catalog []; cyc_orders] ->
     health cyc = Some (services, idx) ->
     (fun (_ : list ApiHealth.HealthCheck) (_ : list string) => @nil ApiHealth.HealthCheck)
       (List.concat services) ["passing"] = []) /\
  snd (fst (watch_run (fun _ _ => []) "env=prod" ["passing"] "us" watch_init
                      [cyc_orders; mkCycle None no_catalog []; cyc_orders])) = [] /\
  snd (watch_run (fun _ _ => []) "env=prod" ["passing"] "us" watch_init
                 [cyc_orders; mkCycle None no_catalog []; cyc_orders]) = [].
Proof.
  assert (H : forall cyc services idx,
             In cyc [cyc_orders; mkCycle None no_catalog []; cyc_orders] ->
             health cyc = Some (services, idx) ->
             (fun (_ : list ApiHealth.HealthCheck) (_ : list string) => @nil ApiHealth.HealthCheck)
               (List.concat services) ["passing"] = [])
    by (intros; reflexivity).
  split; [exact H|].
  apply (no_emission_for_empty_service (fun _ _ => []) "env=prod" ["passing"] "us"
           [cyc_orders; mkCycle None no_catalog []; cyc_orders] H).
Defined.

(* ================================================================== *)
(** * Further properties of service.go                                 *)
(* ================================================================== *)

(** ** The grouping map of [servicesConfig] *)

Lemma add_id_In (id x : string) (ids : list string) :
  In x (add_id id ids) <-> x = id \/ In x ids.
Proof.
  unfold add_id. destruct (in_passing ids id) eqn:E.
  - apply in_passing_In in E. split; [auto|]. intros [->|H]; auto.
  - rewrite in_app_iff; simpl. split.
    + intros [H|[<-|[]]]; auto.
    + intros [->|H]; auto.
Qed.

Lemma add_id_NoDup (id : string) (ids : list string) :
  NoDup ids -> NoDup (add_id id ids).
Proof.
  unfold add_id. destruct (in_passing ids id) eqn:E; auto.
  intros ND. apply NoDup_app; [exact ND | constructor; [intros []|constructor] |].
  intros x Hx [<-|[]]. apply (proj2 (in_passing_In ids id)) in Hx. congruence.
Qed.

Lemma lookup_group_insert (m : list (string * list string)) (name id n : string) :
  lookup_group (group_insert name id m) n =
    if String.eqb n name then add_id id (lookup_group m n) else lookup_group m n.
Proof.
  unfold lookup_group; induction m as [|[k ids] m IH]; simpl.
  - destruct (String.eqb_spec name n), (String.eqb_spec n name); subst; try congruence;
      reflexivity.
  - destruct (String.eqb_spec k name) as [->|Nk]; simpl.
    + destruct (String.eqb_spec name n), (String.eqb_spec n name); subst; try congruence;
        reflexivity.
    + destruct (String.eqb_spec k n) as [->|Nkn]; [|exact IH].
      destruct (String.eqb_spec n name); [congruence|reflexivity].
Qed.

Lemma keys_group_insert (m : list (string * list string)) (name id : string) :
  (forall n, In n (map fst (group_insert name id m)) <-> n = name \/ In n (map fst m))
  /\ (NoDup (map fst m) -> NoDup (map fst (group_insert name id m))).
Proof.
  induction m as [|[k ids] m [IH1 IH2]]; simpl.
  - split; [intros n; split; [intros [<-|[]]; auto | intros [->|[]]; left; auto]|].
    intros _; constructor; [intros []|constructor].
  - destruct (String.eqb_spec k name) as [->|Nk]; simpl.
    + split; [intros n; split; [intros [<-|H]; auto | intros [->|H]; auto] | auto].
    + split.
      * intros n; rewrite IH1; tauto.
      * intros ND; inversion ND as [|? ? Hk ND']; subst. constructor; auto.
        rewrite IH1; intros [->|H]; [congruence|contradiction].
Qed.

Lemma group_fold_spec (checks : list ApiHealth.HealthCheck) :
  forall m,
    (forall n id, In id (lookup_group (fold_left group_step checks m) n) <->
                  In id (lookup_group m n) \/
                  exists c, In c checks /\ ApiHealth.ServiceName c = n /\ ApiHealth.ServiceID c = id)
    /\ (forall n, In n (map fst (fold_left group_step checks m)) <->
                  In n (map fst m) \/ exists c, In c checks /\ ApiHealth.ServiceName c = n)
    /\ (NoDup (map fst m) -> NoDup (map fst (fold_left group_step checks m)))
    /\ ((forall n, NoDup (lookup_group m n)) ->
        forall n, NoDup (lookup_group (fold_left group_step checks m) n)).
Proof.
  induction checks as [|c checks IH]; intros m; simpl.
  - split; [intros n id; split; [auto|intros [H|[c [[] _]]]; exact H]|].
    split; [intros n; split; [auto|intros [H|[c [[] _]]]; exact H]|].
    split; auto.
  - destruct (IH (group_step m c)) as [A [B [C D]]].
    destruct (keys_group_insert m (ApiHealth.ServiceName c) (ApiHealth.ServiceID c)) as [K1 K2].
    split; [|split; [|split]].
    + intros n id. rewrite A. unfold group_step; rewrite lookup_group_insert.
      destruct (String.eqb_spec n (ApiHealth.ServiceName c)) as [->|Nn].
      * rewrite add_id_In. split.
        -- intros [[->|H]|[c' [Hc' [Hn Hi]]]]; [right; exists c; auto | left; exact H |
                                                right; exists c'; auto].
        -- intros [H|[c' [[<-|Hc'] [Hn Hi]]]]; [left; right; exact H | left; left; auto |
                                                 right; exists c'; auto].
      * split.
        -- intros [H|[c' [Hc' [Hn Hi]]]]; [left; exact H | right; exists c'; auto].
        -- intros [H|[c' [[<-|Hc'] [Hn Hi]]]]; [left; exact H | congruence |
                                                 right; exists c'; auto].
    + intros n. rewrite B. unfold group_step; rewrite K1. split.
      * intros [[->|H]|[c' [Hc' Hn]]]; [right; exists c; auto | left; exact H |
                                         right; exists c'; auto].
      * intros [H|[c' [[<-|Hc'] Hn]]]; [left; right; exact H | left; left; auto |
                                         right; exists c'; auto].
    + intros ND; apply C, K2, ND.
    + intros ND. apply D. intros n. unfold group_step; rewrite lookup_group_insert.
      destruct (String.eqb n _); [apply add_id_NoDup|]; apply ND.
Qed.

(** X1.  The map [m] built by [servicesConfig] has one key per distinct
    ServiceName of the passing checks, and [m[name]] holds, without
    repetition, exactly the ServiceIDs of the checks named [name]. *)
Theorem group_checks_spec :
  forall checks : list ApiHealth.HealthCheck,
    (forall n id, In id (lookup_group (group_checks checks) n) <->
                  exists c, In c checks /\ ApiHealth.ServiceName c = n /\ ApiHealth.ServiceID c = id)
    /\ (forall n, In n (map fst (group_checks checks)) <->
                  exists c, In c checks /\ ApiHealth.ServiceName c = n)
    /\ NoDup (map fst (group_checks checks))
    /\ (forall n, NoDup (lookup_group (group_checks checks) n)).
Proof.
  intros checks. unfold group_checks.
  destruct (group_fold_spec checks []) as [A [B [C D]]].
  split; [|split; [|split]].
  - intros n id; rewrite A; unfold lookup_group; simpl. tauto.
  - intros n; rewrite B; simpl; tauto.
  - apply C; constructor.
  - apply D. intros n; constructor.
Qed.

Lemma servicesConfig_names env catalog checks dc order :
  map Name (servicesConfig env catalog checks dc order) = order.
Proof.
  unfold servicesConfig. rewrite map_map.
  induction order as [|n order IH]; simpl; [reflexivity|].
  rewrite serviceConfig_name, IH; reflexivity.
Qed.

(** X2.  Under any iteration order Go may pick, [servicesConfig] returns
    exactly one cluster per distinct ServiceName of the passing checks,
    named after it. *)
Theorem servicesConfig_one_cluster_per_name :
  forall env catalog checks dc order,
    valid_order checks order ->
    NoDup (map Name (servicesConfig env catalog checks dc order))
    /\ (forall n, In n (map Name (servicesConfig env catalog checks dc order)) <->
                  exists c, In c checks /\ ApiHealth.ServiceName c = n).
Proof.
  intros env catalog checks dc order V. rewrite servicesConfig_names.
  destruct (group_fold_spec checks []) as [_ [B [C _]]].
  split.
  - eapply Permutation_NoDup; [symmetry; exact V|]. apply C; constructor.
  - intros n. split.
    + intros H. apply (Permutation_in n V) in H. unfold group_checks in H.
      apply B in H as [[]|H]; exact H.
    + intros H. apply (Permutation_in n (Permutation_sym V)). unfold group_checks.
      apply B; right; exact H.
Qed.

(** X3.  In a cycle that resolves the catalog, the catalog is queried
    once for every distinct non-empty ServiceName of the passing checks,
    in iteration order, and never for the empty name (checks not bound to
    a service). *)
Theorem catalog_queried_names :
  forall checks order,
    valid_order checks order ->
    catalog_calls checks order = filter (fun n => negb (String.eqb n "")) order.
Proof.
  intros checks order V. unfold catalog_calls. cbv zeta.
  apply filter_ext_in. intros n Hn. unfold catalog_queried.
  destruct (group_fold_spec checks []) as [A [B _]].
  apply (Permutation_in n V) in Hn. unfold group_checks in Hn.
  apply B in Hn as [[]|[c [Hc Hn]]].
  assert (Hid : In (ApiHealth.ServiceID c) (lookup_group (group_checks checks) n)).
  { unfold group_checks. apply A. right. exists c; auto. }
  destruct (lookup_group (group_checks checks) n) as [|x l]; [destruct Hid|].
  simpl. rewrite orb_false_r. reflexivity.
Qed.

(** X4.  [checkClusterChanged] looks only at endpoints: two lists whose
    clusters have the same endpoint lists position by position (names
    may differ), in particular a list and itself, never compare as
    changed. *)
Theorem cluster_changed_ignores_names :
  forall new last, map Endpoints new = map Endpoints last -> cluster_changed new last = false.
Proof.
  intros new last H. apply cluster_changed_false_iff.
  revert last H; induction new as [|c new IH]; intros [|c' last] H; simpl in H;
    try discriminate; constructor.
  - injection H as E _. unfold same_sorted; rewrite E; reflexivity.
  - apply IH. injection H as _ E; exact E.
Qed.

(** X5.  [checkCheckersEqual] compares passing sets as sets: lists with
    the same members, in any order and with any repetition, are equal;
    the relation is symmetric. *)
Theorem checkers_equal_set_semantics :
  (forall l1 l2, (forall h, In h l1 <-> In h l2) -> checkCheckersEqual l1 l2 = true)
  /\ (forall l1 l2, checkCheckersEqual l1 l2 = checkCheckersEqual l2 l1).
Proof.
  split.
  - intros l1 l2 H. unfold checkCheckersEqual.
    assert (R : forall h, hc_match h h) by (intros h; repeat split).
    rewrite andb_true_iff, !checkIn_true. split.
    + intros h Hh. exists h; split; [apply H, Hh | apply R].
    + intros h Hh. exists h; split; [apply H, Hh | apply R].
  - intros l1 l2. unfold checkCheckersEqual. apply andb_comm.
Qed.

(** ** The watcher at the edges of the cluster set *)

Lemma checkClusterChanged_nil_last (new : list Cluster) :
  new <> [] -> checkClusterChanged new [] = (true, new, []).
Proof. destruct new; [congruence|reflexivity]. Qed.

Lemma servicesConfig_length env catalog checks dc order :
  List.length (servicesConfig env catalog checks dc order) = List.length order.
Proof. unfold servicesConfig; apply length_map. Qed.

Lemma valid_order_nonempty (checks : list ApiHealth.HealthCheck) (order : list string) :
  valid_order checks order -> checks <> [] -> order <> [].
Proof.
  intros V N E; subst order. destruct checks as [|c checks]; [congruence|].
  destruct (group_fold_spec (c :: checks) []) as [_ [B _]].
  assert (H : In (ApiHealth.ServiceName c) (map fst (group_checks (c :: checks)))).
  { unfold group_checks. apply B. right. exists c; split; [left|]; reflexivity. }
  apply Permutation_nil in V. unfold group_checks in V, H. rewrite V in H. destruct H.
Qed.

(** X6.  When the last cluster set is empty (the initial state, or after
    the service vanished) and the passing set changed to a non-empty
    one, the iteration sends and persists the cluster list exactly as
    [servicesConfig] built it, in map iteration order and with unsorted
    endpoints: the length check of [checkClusterChanged] fires before
    any sorting. *)
Theorem first_config_sent_as_built :
  forall ps env status dc st cyc services idx,
    health cyc = Some (services, idx) ->
    lastConfig st = [] ->
    checkCheckersEqual (oldCheckers st) (ps (List.concat services) status) = false ->
    ps (List.concat services) status <> [] ->
    valid_order (ps (List.concat services) status) (order cyc) ->
    watchService_step ps env status dc st cyc =
      (mkWatchState idx (ps (List.concat services) status)
         (servicesConfig env (catalog cyc) (ps (List.concat services) status) dc (order cyc)),
       Some (servicesConfig env (catalog cyc) (ps (List.concat services) status) dc (order cyc)),
       catalog_calls (ps (List.concat services) status) (order cyc)).
Proof.
  intros ps env status dc st cyc services idx H1 HL H2 HP V.
  rewrite (watchService_step_diff ps env status dc st cyc services idx H1 H2).
  unfold cluster_changed. rewrite HL, checkClusterChanged_nil_last; [reflexivity|].
  intros E. apply (f_equal (@List.length Cluster)) in E.
  rewrite servicesConfig_length in E.
  apply (valid_order_nonempty _ _ V HP). destruct (order cyc); [reflexivity|discriminate].
Qed.

(** X7.  When every previously passing check stops passing while a
    cluster set was last sent, the iteration sends the empty cluster
    list, forgets both the passing set and the cluster set, and queries
    no catalog. *)
Theorem emptied_passing_set_sends_empty :
  forall ps env status dc st cyc services idx,
    health cyc = Some (services, idx) ->
    oldCheckers st <> [] ->
    lastConfig st <> [] ->
    ps (List.concat services) status = [] ->
    valid_order [] (order cyc) ->
    watchService_step ps env status dc st cyc = (mkWatchState idx [] [], Some [], []).
Proof.
  intros ps env status dc st cyc services idx H1 HO HL HP V.
  unfold valid_order, group_checks in V; simpl in V. apply Permutation_sym, Permutation_nil in V.
  unfold watchService_step. rewrite H1; cbv zeta. rewrite HP, V.
  destruct (oldCheckers st) as [|h old]; [congruence|]. simpl.
  destruct (lastConfig st) as [|c last]; [congruence|]. reflexivity.
Qed.

Lemma update_nth_length {A} (i : nat) (x : A) (l : list A) :
  List.length (update_nth i x l) = List.length l.
Proof. revert i; induction l as [|y l IH]; intros [|i]; simpl; auto. Qed.

Lemma step_active_length service st ev st' out :
  watchServices_step service st ev = Some (st', out) ->
  List.length (active st') = List.length (active st).
Proof.
  intros E; destruct ev as [j v|j]; simpl in E.
  - destruct (nth j (active st) false); [|discriminate].
    destruct (checkClusterChanged _ _) as [[b r'] l'].
    injection E as <- _; reflexivity.
  - destruct (nth j (active st) false); [|discriminate].
    injection E as <- _; apply update_nth_length.
Qed.

Lemma agg_run_invariants service evs :
  forall st st' outs, agg_run service st evs = Some (st', outs) ->
  List.length (active st') = List.length (active st)
  /\ (forall i, nth i (active st) false = false -> nth i (active st') false = false)
  /\ (forall i, In (Closed i) evs -> nth i (active st') false = false).
Proof.
  induction evs as [|ev evs IH]; intros st st' outs E; simpl in E.
  - injection E as <- _. split; [reflexivity|]. split; [auto|intros i []].
  - destruct (watchServices_step service st ev) as [[st1 out]|] eqn:S; [|discriminate].
    destruct (agg_run service st1 evs) as [[st2 outs']|] eqn:R; [|discriminate].
    injection E as <- _.
    destruct (IH st1 st2 outs' R) as [L [K C]].
    split; [rewrite L; eapply step_active_length; exact S|].
    split; [intros i Hi; apply K; eapply closed_stays_closed; [exact S|exact Hi]|].
    intros i [->|Hi]; [|apply C; exact Hi].
    apply K. simpl in S. destruct (nth i (active st) false); [|discriminate].
    injection S as <- _; apply nth_update_nth_same.
Qed.

(** X8.  Once each of the [n] datacenter channels has been found closed
    (in any order, interleaved with any values), [reflect.Select] has no
    enabled case left: the aggregator blocks forever and never sends
    again. *)
Theorem aggregator_blocks_after_all_closed :
  forall service n evs,
    (forall i, i < n -> In (Closed i) evs) ->
    match agg_run service (agg_init n) evs with
    | Some (st', _) => forall ev, watchServices_step service st' ev = None
    | None => True
    end.
Proof.
  intros service n evs H.
  destruct (agg_run service (agg_init n) evs) as [[st' outs]|] eqn:R; [|exact I].
  destruct (agg_run_invariants service evs _ _ _ R) as [L [_ C]].
  simpl in L; rewrite repeat_length in L.
  assert (A : forall i, nth i (active st') false = false).
  { intros i. destruct (PeanoNat.Nat.lt_ge_cases i n) as [Hi|Hi].
    - apply C, H, Hi.
    - apply nth_overflow; lia. }
  intros [j v|j]; simpl; rewrite A; reflexivity.
Qed.

Lemma checkClusterChanged_single (service : string) (E : list Endpoint) (last : list Cluster) :
  exists eps, snd (fst (checkClusterChanged [mkCluster service E] last)) = [mkCluster service eps]
              /\ Permutation eps E.
Proof.
  unfold checkClusterChanged. destruct last as [|c2 [|c3 l]]; simpl.
  - exists E; split; reflexivity.
  - destruct (negb _); simpl; exists (sort_by_id E); split; try reflexivity;
      apply sort_by_id_perm.
  - exists E; split; reflexivity.
Qed.

(** X9.  After the aggregator received a value, its last result is one
    cluster named after the watched service whose endpoints are the
    concatenated first-cluster endpoints of all slots, possibly reordered
    by the in-place sort of the comparison; what it sends, if anything,
    is that same list. *)
Theorem aggregator_result_single_cluster :
  forall service st i v st' out,
    watchServices_step service st (Recv i v) = Some (st', out) ->
    exists eps,
      lastResult st' = [mkCluster service eps]
      /\ Permutation eps (List.concat (map first_cluster_endpoints (slots st')))
      /\ (out = None \/ out = Some (lastResult st')).
Proof.
  intros service st i v st' out E.
  destruct (nth i (active st) false) eqn:A;
    [|unfold watchServices_step in E; rewrite A in E; discriminate].
  rewrite (watchServices_step_recv service st i v A) in E.
  injection E as <- <-. simpl. rewrite merge_slots_concat.
  destruct (checkClusterChanged_single service
              (List.concat (map first_cluster_endpoints (update_nth i v (slots st))))
              (lastResult st)) as [eps [E P]].
  exists eps. rewrite E. split; [reflexivity|]. split; [exact P|].
  destruct (cluster_changed _ _); [right|left]; reflexivity.
Qed.

(** ** Witnesses of the further service.go properties *)

Definition ps_orders (_ : list ApiHealth.HealthCheck) (_ : list string)
  : list ApiHealth.HealthCheck := [hc_orders_i1].

Lemma group_checks_spec_witness :
  (In "i1" (lookup_group (group_checks [hc_serf; hc_orders_i1; hc_orders_i1]) "orders") <->
   exists c, In c [hc_serf; hc_orders_i1; hc_orders_i1] /\ ApiHealth.ServiceName c = "orders"
             /\ ApiHealth.ServiceID c = "i1")
  /\ NoDup (map fst (group_checks [hc_serf; hc_orders_i1; hc_orders_i1])).
Proof.
  destruct (group_checks_spec [hc_serf; hc_orders_i1; hc_orders_i1]) as [A [_ [C _]]].
  split; [apply A|exact C].
Defined.

Lemma servicesConfig_one_cluster_per_name_witness :
  valid_order [hc_orders_i1; hc_serf; hc_orders_i1] [""; "orders"] /\
  NoDup (map Name (servicesConfig "env=prod" catalog_orders
                     [hc_orders_i1; hc_serf; hc_orders_i1] "us" [""; "orders"])).
Proof.
  assert (V : valid_order [hc_orders_i1; hc_serf; hc_orders_i1] [""; "orders"])
    by (unfold valid_order; vm_compute; apply perm_swap).
  split; [exact V|].
  apply (servicesConfig_one_cluster_per_name "env=prod" catalog_orders
           [hc_orders_i1; hc_serf; hc_orders_i1] "us" [""; "orders"] V).
Defined.

Lemma catalog_queried_names_witness :
  valid_order [hc_orders_i1; hc_serf] [""; "orders"] /\
  catalog_calls [hc_orders_i1; hc_serf] [""; "orders"] =
    filter (fun n => negb (String.eqb n "")) [""; "orders"].
Proof.
  assert (V : valid_order [hc_orders_i1; hc_serf] [""; "orders"])
    by (unfold valid_order; vm_compute; apply perm_swap).
  split; [exact V|]. apply (catalog_queried_names _ _ V).
Defined.

Lemma cluster_changed_ignores_names_witness :
  map Endpoints [mkCluster "orders" [ep_b; ep_a]] = map Endpoints [mkCluster "" [ep_b; ep_a]] /\
  cluster_changed [mkCluster "orders" [ep_b; ep_a]] [mkCluster "" [ep_b; ep_a]] = false.
Proof.
  split; [reflexivity|]. apply cluster_changed_ignores_names. reflexivity.
Defined.

Lemma checkers_equal_set_semantics_witness :
  (forall h, In h [hc_orders_i1; hc_serf; hc_orders_i1] <-> In h [hc_serf; hc_orders_i1]) /\
  checkCheckersEqual [hc_orders_i1; hc_serf; hc_orders_i1] [hc_serf; hc_orders_i1] = true.
Proof.
  assert (H : forall h, In h [hc_orders_i1; hc_serf; hc_orders_i1] <->
                        In h [hc_serf; hc_orders_i1]) by (intros h; simpl; tauto).
  split; [exact H|]. apply (proj1 checkers_equal_set_semantics _ _ H).
Defined.

Lemma first_config_sent_as_built_witness :
  checkCheckersEqual (oldCheckers watch_init) [hc_orders_i1] = false /\
  watchService_step ps_orders "env=prod" ["passing"] "us" watch_init cyc_orders =
    (mkWatchState 12 [hc_orders_i1]
       (servicesConfig "env=prod" catalog_orders [hc_orders_i1] "us" ["orders"]),
     Some (servicesConfig "env=prod" catalog_orders [hc_orders_i1] "us" ["orders"]),
     catalog_calls [hc_orders_i1] ["orders"]).
Proof.
  split; [reflexivity|].
  apply (first_config_sent_as_built ps_orders "env=prod" ["passing"] "us" watch_init cyc_orders
           [[hc_orders_i1]] 12%N); try reflexivity.
  - discriminate.
  - unfold valid_order; vm_compute; apply Permutation_refl.
Defined.

Lemma emptied_passing_set_sends_empty_witness :
  oldCheckers (mkWatchState 12 [hc_orders_i1] [mkCluster "orders" [ep_a]]) <> [] /\
  watchService_step (fun _ _ => []) "env=prod" ["passing"] "us"
    (mkWatchState 12 [hc_orders_i1] [mkCluster "orders" [ep_a]])
    (mkCycle (Some ([[hc_orders_i1]], 13%N)) catalog_orders []) =
    (mkWatchState 13 [] [], Some [], []).
Proof.
  split; [discriminate|].
  apply (emptied_passing_set_sends_empty (fun _ _ => []) "env=prod" ["passing"] "us"
           (mkWatchState 12 [hc_orders_i1] [mkCluster "orders" [ep_a]])
           (mkCycle (Some ([[hc_orders_i1]], 13%N)) catalog_orders [])
           [[hc_orders_i1]] 13%N); try reflexivity; try discriminate.
  unfold valid_order; vm_compute; constructor.
Defined.

Lemma aggregator_blocks_after_all_closed_witness :
  (forall i, i < 2 -> In (Closed i) [Closed 1; Recv 0 [mkCluster "orders" [ep_a]]; Closed 0]) /\
  match agg_run "orders" (agg_init 2) [Closed 1; Recv 0 [mkCluster "orders" [ep_a]]; Closed 0] with
  | Some (st', _) => forall ev, watchServices_step "orders" st' ev = None
  | None => True
  end.
Proof.
  assert (H : forall i, i < 2 ->
                In (Closed i) [Closed 1; Recv 0 [mkCluster "orders" [ep_a]]; Closed 0]).
  { intros [|[|i]] Hi; simpl; auto; lia. }
  split; [exact H|]. apply (aggregator_blocks_after_all_closed "orders" 2 _ H).
Defined.

Lemma aggregator_result_single_cluster_witness :
  watchServices_step "orders" (agg_init 1) (Recv 0 [mkCluster "orders" [ep_b; ep_a]]) =
    Some (mkAggState [true] [[mkCluster "orders" [ep_b; ep_a]]] [mkCluster "orders" [ep_b; ep_a]],
          Some [mkCluster "orders" [ep_b; ep_a]]) /\
  exists eps,
    [mkCluster "orders" [ep_b; ep_a]] = [mkCluster "orders" eps]
    /\ Permutation eps (List.concat (map first_cluster_endpoints [[mkCluster "orders" [ep_b; ep_a]]]))
    /\ (Some [mkCluster "orders" [ep_b; ep_a]] = None \/
        Some [mkCluster "orders" [ep_b; ep_a]] = Some [mkCluster "orders" [ep_b; ep_a]]).
Proof.
  assert (E : watchServices_step "orders" (agg_init 1) (Recv 0 [mkCluster "orders" [ep_b; ep_a]]) =
    Some (mkAggState [true] [[mkCluster "orders" [ep_b; ep_a]]] [mkCluster "orders" [ep_b; ep_a]],
          Some [mkCluster "orders" [ep_b; ep_a]])) by reflexivity.
  split; [exact E|]. apply (aggregator_result_single_cluster _ _ _ _ _ _ E).
Defined.

(* ================================================================== *)
(** * Properties of the request builder (package client)               *)
(* ================================================================== *)

Module ClientFacts.
Import Client.

(** ** Header maps *)

Lemma map_get_add (x key v : string) (m : list (string * list string)) :
  map_get x (map_add key v m) =
    if String.eqb key x then map_get x m ++ [v] else map_get x m.
Proof.
  induction m as [|[k vs] m IH]; simpl.
  - destruct (String.eqb_spec key x); reflexivity.
  - destruct (String.eqb_spec k key) as [->|Nk]; simpl.
    + destruct (String.eqb_spec key x); reflexivity.
    + rewrite IH. destruct (String.eqb_spec k x), (String.eqb_spec key x); subst;
        try congruence; reflexivity.
Qed.

Lemma map_get_add_all (canon : string -> string) (x : string) ps m :
  map_get x (add_all canon m ps) =
    map_get x m ++ map snd (filter (fun p => String.eqb (canon (fst p)) x) ps).
Proof.
  unfold add_all. revert m; induction ps as [|[k v] ps IH]; intros m; simpl.
  - now rewrite app_nil_r.
  - rewrite IH, map_get_add. destruct (String.eqb (canon k) x); simpl;
      [now rewrite <- app_assoc|reflexivity].
Qed.

Section Loops.
Variable canon : string -> string.
Context {Value : Type}.
Variable sprint : Value -> string.

(** The pairs the index loop of [WithHeaders] adds, and the padded last
    key. *)
Fixpoint full_pairs (kv : list Value) : list (string * string) :=
  match kv with
  | k :: v :: kv' => (sprint k, sprint v) :: full_pairs kv'
  | _ => []
  end.

Fixpoint odd_tail (kv : list Value) : list (string * string) :=
  match kv with
  | [] => []
  | [k] => [(sprint k, "")]
  | _ :: _ :: kv' => odd_tail kv'
  end.

Lemma header_pairs_split (kv : list Value) :
  header_pairs sprint kv = full_pairs kv ++ odd_tail kv.
Proof.
  assert (G : forall n (kv : list Value), List.length kv <= n ->
                header_pairs sprint kv = full_pairs kv ++ odd_tail kv).
  { induction n as [|n IH]; intros [|a [|b r]] L; simpl in *; try reflexivity; try lia.
    f_equal. apply IH. lia. }
  apply (G (List.length kv)). lia.
Qed.

Lemma odd_tail_parity (kv : list Value) :
  ((Z.of_nat (List.length kv) mod 2 = 1)%Z /\
     exists k, nth_error kv (List.length kv - 1) = Some k /\ odd_tail kv = [(sprint k, "")])
  \/ ((Z.of_nat (List.length kv) mod 2 = 0)%Z /\ odd_tail kv = []).
Proof.
  assert (G : forall n (kv : list Value), List.length kv <= n ->
     ((Z.of_nat (List.length kv) mod 2 = 1)%Z /\
        exists k, nth_error kv (List.length kv - 1) = Some k /\ odd_tail kv = [(sprint k, "")])
     \/ ((Z.of_nat (List.length kv) mod 2 = 0)%Z /\ odd_tail kv = [])).
  { induction n as [|n IH]; intros [|a [|b r]] L; simpl in L.
    - right; split; reflexivity.
    - lia.
    - lia.
    - right; split; reflexivity.
    - left; split; [reflexivity|]. exists a; split; reflexivity.
    - assert (P : (Z.of_nat (List.length (a :: b :: r)) mod 2 = Z.of_nat (List.length r) mod 2)%Z).
      { replace (Z.of_nat (List.length (a :: b :: r))) with
          (Z.of_nat (List.length r) + 1 * 2)%Z by (simpl; lia).
        apply Z_mod_plus_full. }
      rewrite P. destruct (IH r ltac:(lia)) as [[M [k [N T]]]|[M T]].
      + left; split; [exact M|]. exists k; split; [|exact T].
        destruct r as [|x r]; [discriminate M|].
        replace (List.length (a :: b :: x :: r) - 1) with (S (S (List.length (x :: r) - 1)))
          by (simpl; lia).
        exact N.
      + right; split; [exact M|exact T]. }
  apply (G (List.length kv)). lia.
Qed.

Lemma headers_loop_spec (kv : list Value) :
  forall fuel i rest m,
    skipn i kv = rest -> i + List.length rest = List.length kv -> List.length rest <= fuel ->
    headers_loop canon sprint fuel i (Z.of_nat (List.length kv) - 1) kv (HMap m) =
      Some (HMap (add_all canon m (full_pairs rest))).
Proof.
  induction fuel as [|fuel IH]; intros i rest m Sk Li Lf.
  - destruct rest; [reflexivity|simpl in Lf; lia].
  - destruct rest as [|a [|b r]].
    + simpl. rewrite (proj2 (Z.ltb_ge _ _)) by (simpl in Li; lia). reflexivity.
    + simpl. rewrite (proj2 (Z.ltb_ge _ _)) by (simpl in Li; lia). reflexivity.
    + simpl. rewrite (proj2 (Z.ltb_lt _ _)) by (simpl in Li; lia).
      assert (Na : nth_error kv i = Some a).
      { rewrite <- (PeanoNat.Nat.add_0_r i), <- nth_error_skipn, Sk. reflexivity. }
      assert (Nb : nth_error kv (i + 1) = Some b).
      { rewrite <- nth_error_skipn, Sk. reflexivity. }
      rewrite Na, Nb. simpl. apply IH.
      * rewrite PeanoNat.Nat.add_comm, <- skipn_skipn, Sk. reflexivity.
      * simpl in Li; lia.
      * simpl in Lf; lia.
Qed.

(** [WithHeaders] on a non-nil header adds the pairs of [header_pairs],
    in order. *)
Lemma WithHeaders_map (c : client) (m : list (string * list string)) (kv : list Value) :
  header c = HMap m ->
  WithHeaders canon sprint c kv =
    Some (set_header c (HMap (add_all canon m (header_pairs sprint kv)))).
Proof.
  intros H. unfold WithHeaders; cbv zeta. rewrite H.
  rewrite (headers_loop_spec kv (List.length kv) 0 kv m eq_refl eq_refl (le_n _)).
  replace (Z.of_nat (List.length kv) - 1 + 1)%Z with (Z.of_nat (List.length kv)) by lia.
  rewrite header_pairs_split.
  destruct (odd_tail_parity kv) as [[M [k [N T]]]|[M T]]; rewrite M, T; simpl.
  - replace (Z.to_nat (Z.of_nat (List.length kv) - 1)) with (List.length kv - 1) by lia.
    rewrite N. simpl. unfold add_all. rewrite fold_left_app. reflexivity.
  - rewrite app_nil_r. reflexivity.
Qed.

Lemma header_map_loop_map (m : list (string * list string)) (kvs : list (string * Value)) :
  header_map_loop canon sprint (HMap m) kvs =
    Some (HMap (add_all canon m (map (fun p => (fst p, sprint (snd p))) kvs))).
Proof.
  revert m; induction kvs as [|[k v] kvs IH]; intros m; simpl; [reflexivity|].
  apply IH.
Qed.

End Loops.

(** ** Builder errors *)

Lemma run_op_keeps_err {Value} canon (sprint : Value -> string) op c c' :
  run_op canon sprint op c = Some c' -> err c <> None -> err c' <> None.
Proof.
  intros E H. destruct op as [u|u|k v|kvs|kv|t|b|conf|nr dr]; simpl in E.
  - injection E as <-; exact H.
  - injection E as <-; exact H.
  - injection E as <-; exact H.
  - unfold WithHeaderMap in E.
    destruct (header_map_loop _ _ _ _); simpl in E; [injection E as <-; exact H|discriminate].
  - unfold WithHeaders in E. destruct (headers_loop _ _ _ _ _ _ _); [|discriminate].
    destruct (_ =? 1)%Z.
    + destruct (nth_error _ _); [|discriminate].
      destruct (header_Add _ _ _ _); simpl in E; [injection E as <-; exact H|discriminate].
    + injection E as <-; exact H.
  - injection E as <-; exact H.
  - injection E as <-. destruct b as [[e|s]|s|s|[e|s]]; simpl; try discriminate; exact H.
  - injection E as <-; exact H.
  - injection E as <-. unfold Response.
    destruct (String.eqb (method c) MethodGet);
      destruct (nr _ _) as [e|]; simpl; try discriminate;
      destruct (dr _) as [e'|r]; simpl; try discriminate; exact H.
Qed.

(** X10.  The error of a chain is sticky: once a builder step has
    recorded an error, no later builder call (nor [Response]) clears it,
    and every parser called afterwards returns an error without touching
    the response: its body is neither read nor closed, and [*str] is
    left as it was. *)
Theorem client_error_sticky :
  forall Value canon (sprint : Value -> string) ops c c',
    run_ops canon sprint ops c = Some c' ->
    err c <> None ->
    err c' <> None
    /\ (forall Data (unmarshal : string -> Data -> option error) d,
          exists e, ParseDataJson unmarshal c' d = Some (Some e, false))
    /\ (forall s, exists e, ParseString c' s = Some (Some e, false, s)).
Proof.
  intros Value canon sprint ops. induction ops as [|op ops IH]; intros c c' E H; simpl in E.
  - injection E as <-. destruct (err c) as [e|] eqn:Ec; [|congruence].
    split; [exact H|]. unfold ParseDataJson, ParseString; rewrite Ec.
    split; [intros; exists e; reflexivity | intros s; exists e; reflexivity].
  - destruct (run_op canon sprint op c) as [c1|] eqn:E1; [|discriminate].
    apply (IH c1 c' E). eapply run_op_keeps_err; eassumption.
Qed.

(** X11.  A body that cannot be read or marshalled does not stop the
    chain: [WithBody] records the error and keeps the previous body,
    [Response] still sends the request (with that previous body, or
    none) and stores the response, and the parsers then report the body
    error and never close the response body. *)
Theorem body_error_request_still_sent :
  forall nr dr c u e b r,
    (b = BReader (inl e) \/ b = BOther (inl e)) ->
    nr MethodPost u = None ->
    dr (mkRequest MethodPost u (body c) (header c) (wrap64 (timeout c * second))
                  (tlsClientConfig c)) = inr r ->
    snd (Response nr dr (WithBody (Post c u) b)) =
      Some (mkRequest MethodPost u (body c) (header c) (wrap64 (timeout c * second))
                      (tlsClientConfig c))
    /\ respBody (fst (Response nr dr (WithBody (Post c u) b))) = Some r
    /\ (forall Data (unmarshal : string -> Data -> option error) d,
          ParseDataJson unmarshal (fst (Response nr dr (WithBody (Post c u) b))) d
          = Some (Some e, false))
    /\ (forall s, ParseString (fst (Response nr dr (WithBody (Post c u) b))) s
                  = Some (Some e, false, s)).
Proof.
  intros nr dr c u e b r Hb Hnr Hdr.
  assert (W : WithBody (Post c u) b = set_err (Post c u) e) by (destruct Hb; subst; reflexivity).
  rewrite W. unfold Response. simpl. rewrite Hnr. unfold request_method; simpl. rewrite Hdr. simpl.
  repeat split; reflexivity.
Qed.

(** X12.  [WithHeaders] and [WithHeaderMap] add to the header without
    creating it: on a client whose header is nil, as [NewReq] leaves it,
    any non-empty argument makes them panic (assignment to an entry in a
    nil map).  Only [WithHeader] creates the header; after it, neither
    panics. *)
Theorem nil_header_panics :
  forall Value canon (sprint : Value -> string),
    header NewReq = HNil
    /\ (forall c kv, header c = HNil -> kv <> [] -> WithHeaders canon sprint c kv = None)
    /\ (forall c kvs, header c = HNil -> kvs <> [] -> WithHeaderMap canon sprint c kvs = None)
    /\ (forall c k v kv, WithHeaders canon sprint (WithHeader canon sprint c k v) kv <> None)
    /\ (forall c k v kvs, WithHeaderMap canon sprint (WithHeader canon sprint c k v) kvs <> None).
Proof.
  intros Value canon sprint. split; [reflexivity|]. split; [|split; [|split]].
  - intros c kv H N. unfold WithHeaders; cbv zeta. rewrite H.
    destruct kv as [|k [|v r]]; [congruence|reflexivity|].
    remember (Z.of_nat (List.length (k :: v :: r)) - 1)%Z as l eqn:El.
    assert (Hl : (0 < l)%Z) by (subst l; simpl List.length; lia).
    simpl. rewrite (proj2 (Z.ltb_lt _ _) Hl). reflexivity.
  - intros c kvs H N. unfold WithHeaderMap. rewrite H.
    destruct kvs as [|[k v] kvs]; [congruence|reflexivity].
  - intros c k v kv.
    rewrite (WithHeaders_map canon sprint (WithHeader canon sprint c k v) _ kv eq_refl).
    discriminate.
  - intros c k v kvs. unfold WithHeaderMap. simpl. rewrite header_map_loop_map.
    discriminate.
Qed.

(** X13.  On a non-nil header, [WithHeaders] never panics: it adds each
    key with the value that follows it and, for an odd-length argument
    list, the last key with the empty value ([header_pairs]); afterwards
    the values of every header name are the old ones followed by those
    of the added pairs whose key has that canonical name, in argument
    order. *)
Theorem WithHeaders_pairs :
  forall Value canon (sprint : Value -> string) c m kv,
    header c = HMap m ->
    exists c',
      WithHeaders canon sprint c kv = Some c'
      /\ c' = set_header c (HMap (add_all canon m (header_pairs sprint kv)))
      /\ (forall k', header_values canon (header c') k' =
                       header_values canon (header c) k' ++
                       map snd (filter (fun p => String.eqb (canon (fst p)) (canon k'))
                                       (header_pairs sprint kv))).
Proof.
  intros Value canon sprint c m kv H.
  eexists; split; [apply (WithHeaders_map canon sprint c m kv H)|].
  split; [reflexivity|]. intros k'. simpl. rewrite H. apply map_get_add_all.
Qed.

(** X14.  [WithHeader] always leaves a non-nil header and appends the
    printed value to the values of the key's canonical name; the values
    of every other name are unchanged. *)
Theorem WithHeader_values :
  forall Value canon (sprint : Value -> string) c k v k',
    header (WithHeader canon sprint c k v) <> HNil
    /\ header_values canon (header (WithHeader canon sprint c k v)) k' =
         if String.eqb (canon k) (canon k')
         then header_values canon (header c) k' ++ [sprint v]
         else header_values canon (header c) k'.
Proof.
  intros Value canon sprint c k v k'. unfold WithHeader; simpl.
  split; [discriminate|]. rewrite map_get_add. destruct (header c); reflexivity.
Qed.

Lemma map_snd_filter_map {Value} (canon : string -> string) (sprint : Value -> string) x
      (kvs : list (string * Value)) :
  map snd (filter (fun p => String.eqb (canon (fst p)) x)
                  (map (fun p => (fst p, sprint (snd p))) kvs)) =
    map (fun p => sprint (snd p)) (filter (fun p => String.eqb (canon (fst p)) x) kvs).
Proof.
  induction kvs as [|[k v] kvs IH]; simpl; [reflexivity|].
  destruct (String.eqb (canon k) x); simpl; rewrite IH; reflexivity.
Qed.

Lemma filter_key_at_most_one {A} (g : A -> string) (x : string) (l : list A) :
  NoDup (map g l) -> List.length (filter (fun p => String.eqb (g p) x) l) <= 1.
Proof.
  induction l as [|a l IH]; intros ND; simpl; [lia|].
  inversion ND as [|? ? Ha ND']; subst.
  destruct (String.eqb_spec (g a) x) as [Ea|Na]; simpl; [|apply IH, ND'].
  destruct (filter (fun p => String.eqb (g p) x) l) as [|b r] eqn:F; simpl; [lia|].
  exfalso. assert (Hb : In b (filter (fun p => String.eqb (g p) x) l)) by (rewrite F; left; auto).
  apply filter_In in Hb as [Hb Eb]. apply String.eqb_eq in Eb.
  apply Ha. rewrite Ea, <- Eb. apply in_map, Hb.
Qed.

Lemma perm_filter {A} (f : A -> bool) (l1 l2 : list A) :
  Permutation l1 l2 -> Permutation (filter f l1) (filter f l2).
Proof.
  induction 1 as [|x l1 l2 P IH|x y l|l1 l2 l3 P1 IH1 P2 IH2]; simpl.
  - constructor.
  - destruct (f x); [constructor|]; exact IH.
  - destruct (f x), (f y); try constructor; reflexivity.
  - etransitivity; eassumption.
Qed.

Lemma filter_key_perm {A} (g : A -> string) (x : string) (l1 l2 : list A) :
  Permutation l1 l2 -> NoDup (map g l1) ->
  filter (fun p => String.eqb (g p) x) l1 = filter (fun p => String.eqb (g p) x) l2.
Proof.
  intros P ND.
  pose proof (perm_filter (fun p => String.eqb (g p) x) _ _ P) as PF.
  pose proof (filter_key_at_most_one g x l1 ND) as L.
  destruct (filter (fun p => String.eqb (g p) x) l1) as [|a [|b r]]; simpl in L; try lia.
  - symmetry; apply Permutation_nil, PF.
  - symmetry; apply Permutation_length_1_inv, PF.
Qed.

(** X15.  On a non-nil header, [WithHeaderMap] never panics and appends
    the printed value of every entry to the values of its key's
    canonical name.  When no two keys of the map have the same canonical
    name, the resulting header does not depend on the order in which Go
    iterates over the map. *)
Theorem WithHeaderMap_values :
  forall Value canon (sprint : Value -> string) c m kvs,
    header c = HMap m ->
    exists c',
      WithHeaderMap canon sprint c kvs = Some c'
      /\ (forall k', header_values canon (header c') k' =
                       header_values canon (header c) k' ++
                       map (fun p => sprint (snd p))
                           (filter (fun p => String.eqb (canon (fst p)) (canon k')) kvs))
      /\ (forall kvs', Permutation kvs kvs' -> NoDup (map (fun p => canon (fst p)) kvs) ->
            exists c'', WithHeaderMap canon sprint c kvs' = Some c''
                        /\ forall k', header_values canon (header c'') k' =
                                      header_values canon (header c') k').
Proof.
  intros Value canon sprint c m kvs H.
  assert (G : forall l k', exists c', WithHeaderMap canon sprint c l = Some c' /\
            header_values canon (header c') k' =
              header_values canon (header c) k' ++
              map (fun p => sprint (snd p))
                  (filter (fun p => String.eqb (canon (fst p)) (canon k')) l)).
  { intros l k'. unfold WithHeaderMap. rewrite H, header_map_loop_map. simpl.
    eexists; split; [reflexivity|]. simpl.
    rewrite map_get_add_all, map_snd_filter_map. reflexivity. }
  eexists; split.
  { unfold WithHeaderMap. rewrite H, header_map_loop_map. reflexivity. }
  split.
  { intros k'. simpl. rewrite H, map_get_add_all, map_snd_filter_map. reflexivity. }
  intros kvs' P ND. eexists; split.
  { unfold WithHeaderMap. rewrite H, header_map_loop_map. reflexivity. }
  intros k'. simpl. rewrite !map_get_add_all, !map_snd_filter_map.
  rewrite (filter_key_perm (fun p => canon (fst p)) (canon k') kvs kvs' P ND).
  reflexivity.
Qed.

Lemma wrap64_small (z : Z) :
  (0 <= z < 9223372036854775808)%Z -> wrap64 z = z.
Proof. intros H. unfold wrap64. rewrite Z.mod_small by lia. lia. Qed.

Lemma wrap64_high (z : Z) :
  (9223372036854775808 <= z < 18446744073709551616 + 9223372036854775808)%Z ->
  wrap64 z = (z - 18446744073709551616)%Z.
Proof.
  intros H. unfold wrap64.
  replace (z + 9223372036854775808)%Z with
    ((z + 9223372036854775808 - 18446744073709551616) + 1 * 18446744073709551616)%Z by lia.
  rewrite Z_mod_plus_full, Z.mod_small by lia. lia.
Qed.

(** X16.  [Response] sends a request only when [http.NewRequest]
    succeeded; the request carries the client's method (["GET"] when the
    client's method is empty, as [NewReq] leaves it), URL, header (the
    same map) and TLS configuration, no body when the client's method is
    ["GET"] (the stored body is dropped from the client as well) and the
    stored body otherwise, so a client with an empty method sends a GET
    carrying its stored body; and a
    client timeout of [timeout] seconds computed in wrapping [int64]
    arithmetic: exact up to 9223372036 s, negative from 9223372037 s to
    18446744073 s. *)
Theorem response_request :
  forall nr dr c,
    body (fst (Response nr dr c)) =
      (if String.eqb (method c) MethodGet then None else body c)
    /\ forall req, snd (Response nr dr c) = Some req ->
       nr (method c) (url c) = None
       /\ rmethod req = (if String.eqb (method c) "" then MethodGet else method c)
       /\ rurl req = url c /\ rheader req = header c
       /\ rtls req = tlsClientConfig c
       /\ rbody req = (if String.eqb (method c) MethodGet then None else body c)
       /\ (method c = "" -> rmethod req = MethodGet /\ rbody req = body c)
       /\ rtimeout req = wrap64 (timeout c * second)
       /\ ((0 <= timeout c <= 9223372036)%Z -> rtimeout req = (timeout c * second)%Z)
       /\ ((9223372037 <= timeout c <= 18446744073)%Z ->
             rtimeout req = (timeout c * second - 18446744073709551616)%Z
             /\ (rtimeout req < 0)%Z).
Proof.
  intros nr dr c.
  assert (T : ((0 <= timeout c <= 9223372036)%Z ->
               wrap64 (timeout c * second) = (timeout c * second)%Z)
            /\ ((9223372037 <= timeout c <= 18446744073)%Z ->
                  wrap64 (timeout c * second) = (timeout c * second - 18446744073709551616)%Z
                  /\ (wrap64 (timeout c * second) < 0)%Z)).
  { unfold second. split; intros H.
    - apply wrap64_small; lia.
    - rewrite wrap64_high by lia. split; [reflexivity|lia]. }
  unfold Response, request_method.
  destruct (String.eqb (method c) MethodGet) eqn:G; simpl;
    destruct (nr (method c) (url c)) as [e|] eqn:Hn; simpl;
    try (destruct (dr _) as [e'|r]; simpl);
    (split; [reflexivity|]); intros req Hr; try discriminate;
    injection Hr as <-; simpl; repeat (split; [reflexivity|]);
    (split; [intros E; rewrite E in *; simpl in G |- *; try discriminate G; split; reflexivity|]);
    repeat (split; [reflexivity|]); exact T.
Qed.

(** X17.  What the parsers do with the stored response.  With no
    stored error and no response (no successful [Response] call) they
    panic.  The response body is closed exactly when no error was stored
    before the call.  [ParseString] writes [*str] only on success, and
    only with the body of a 200 response.  A non-200 status is reported
    as an error carrying the status text, before the body is read.
    [ParseEmpty] succeeds exactly when no error is stored and the status
    is 200, whatever the body. *)
Theorem parse_contract :
  forall Data (unmarshal : string -> Data -> option error) c d s,
    (err c = None -> respBody c = None ->
       ParseDataJson unmarshal c d = None /\ ParseString c s = None)
    /\ (forall res closed, ParseDataJson unmarshal c d = Some (res, closed) ->
          (closed = true <-> err c = None))
    /\ (forall res closed s', ParseString c s = Some (res, closed, s') ->
          (closed = true <-> err c = None)
          /\ (res <> None -> s' = s)
          /\ (res = None -> exists r, respBody c = Some r /\ StatusCode r = StatusOK
                                      /\ Body r = inr s'))
    /\ (forall r, err c = None -> respBody c = Some r -> StatusCode r <> StatusOK ->
          ParseDataJson unmarshal c d = Some (Some (Status r), true)
          /\ ParseString c s = Some (Some (Status r), true, s))
    /\ (forall res closed, ParseEmpty unmarshal c = Some (res, closed) ->
          (res = None <-> err c = None /\ exists r, respBody c = Some r /\ StatusCode r = StatusOK)).
Proof.
  intros Data unmarshal c d s.
  unfold ParseEmpty, ParseDataJson, ParseString.
  destruct (err c) as [e|] eqn:Ec;
    [|destruct (respBody c) as [r|] eqn:Er;
      [destruct (Z.eqb_spec (StatusCode r) StatusOK) as [Ok|Nok]; simpl;
       [destruct (Body r) as [be|bs] eqn:Eb|]|]].
  all: repeat split; intros;
       repeat match goal with
              | H : _ /\ _ |- _ => destruct H
              | H : exists _, _ |- _ => destruct H
              | H : Some _ = Some _ |- _ => injection H as; subst
              | H : (_, _) = (_, _) |- _ => injection H as; subst
              end; try discriminate; try congruence; eauto.
  all: try (destruct d; injection H as; subst; reflexivity).

Qed.

(** ** Witnesses *)

Definition id_str (s : string) : string := s.
Definition resp200 : HttpResponse := mkHttpResponse 200 "200 OK" (inr "{}").
Definition resp404 : HttpResponse := mkHttpResponse 404 "404 Not Found" (inr "").
Definition nr_ok : string -> string -> option error := fun _ _ => None.
Definition dr_ok : Request -> error + HttpResponse := fun _ => inr resp200.
Definition unmarshal_ok : string -> unit -> option error := fun _ _ => None.
Definition api_url : string := "http://svc/api".
Definition marshal_err : error := "json: unsupported type: chan int".

Definition failed_body_client : client :=
  WithBody (Post NewReq api_url) (BOther (inl marshal_err)).
Definition chain_ops : list (Op string) := [OHeader "X-Trace" "1"; OResponse nr_ok dr_ok].
Definition chain_result : client :=
  fst (Response nr_ok dr_ok (WithHeader id_str id_str failed_body_client "X-Trace" "1")).

Lemma client_error_sticky_witness :
  run_ops id_str id_str chain_ops failed_body_client = Some chain_result /\
  err failed_body_client <> None /\ err chain_result <> None.
Proof.
  assert (R : run_ops id_str id_str chain_ops failed_body_client = Some chain_result)
    by reflexivity.
  assert (N : err failed_body_client <> None) by discriminate.
  split; [exact R|]. split; [exact N|].
  apply (proj1 (client_error_sticky string id_str id_str chain_ops _ _ R N)).
Defined.

Lemma body_error_request_still_sent_witness :
  nr_ok MethodPost api_url = None /\
  respBody (fst (Response nr_ok dr_ok (WithBody (Post NewReq api_url) (BOther (inl marshal_err)))))
    = Some resp200.
Proof.
  split; [reflexivity|].
  apply (proj1 (proj2 (body_error_request_still_sent nr_ok dr_ok NewReq api_url marshal_err
                         (BOther (inl marshal_err)) resp200 (or_intror eq_refl)
                         eq_refl eq_refl))).
Defined.

Lemma nil_header_panics_witness :
  header NewReq = HNil /\ WithHeaders id_str id_str NewReq ["Content-Type"] = None.
Proof.
  split; [reflexivity|].
  apply (proj1 (proj2 (nil_header_panics string id_str id_str)) NewReq ["Content-Type"]);
    [reflexivity|discriminate].
Defined.

Lemma WithHeaders_pairs_witness :
  header (WithHeader id_str id_str NewReq "A" "1") = HMap [("A", ["1"])] /\
  exists c', WithHeaders id_str id_str (WithHeader id_str id_str NewReq "A" "1") ["B"; "2"; "A"]
             = Some c'
             /\ header_values id_str (header c') "A" = ["1"; ""].
Proof.
  assert (H : header (WithHeader id_str id_str NewReq "A" "1") = HMap [("A", ["1"])])
    by reflexivity.
  split; [exact H|].
  destruct (WithHeaders_pairs string id_str id_str _ _ ["B"; "2"; "A"] H) as [c' [E [_ V]]].
  exists c'. split; [exact E|]. rewrite V. reflexivity.
Defined.

Lemma WithHeader_values_witness :
  header_values id_str (header (WithHeader id_str id_str NewReq "A" "1")) "A" = ["1"].
Proof. apply (proj2 (WithHeader_values string id_str id_str NewReq "A" "1" "A")). Defined.

Lemma WithHeaderMap_values_witness :
  header (WithHeader id_str id_str NewReq "A" "1") = HMap [("A", ["1"])] /\
  exists c', WithHeaderMap id_str id_str (WithHeader id_str id_str NewReq "A" "1")
               [("B", "2"); ("A", "3")] = Some c'
             /\ header_values id_str (header c') "A" = ["1"; "3"].
Proof.
  assert (H : header (WithHeader id_str id_str NewReq "A" "1") = HMap [("A", ["1"])])
    by reflexivity.
  split; [exact H|].
  destruct (WithHeaderMap_values string id_str id_str _ _ [("B", "2"); ("A", "3")] H)
    as [c' [E [V _]]].
  exists c'. split; [exact E|]. rewrite V. reflexivity.
Defined.

Definition huge_timeout_client : client := WithTimeout (Get NewReq api_url) 9223372037.
Definition huge_timeout_request : Request :=
  mkRequest MethodGet api_url None HNil (wrap64 (9223372037 * second)) None.

(** [NewReq().WithBody("x")]: the empty method of [NewReq], a body. *)
Definition empty_method_client : client := WithBody NewReq (BString "x").
Definition empty_method_request : Request :=
  mkRequest MethodGet "" (Some "x") HNil (wrap64 (defaultTimeout * second)) None.

Lemma response_request_witness :
  snd (Response nr_ok dr_ok huge_timeout_client) = Some huge_timeout_request /\
  (rtimeout huge_timeout_request < 0)%Z /\
  snd (Response nr_ok dr_ok empty_method_client) = Some empty_method_request /\
  rmethod empty_method_request = MethodGet /\ rbody empty_method_request = Some "x".
Proof.
  assert (R : snd (Response nr_ok dr_ok huge_timeout_client) = Some huge_timeout_request)
    by reflexivity.
  assert (R' : snd (Response nr_ok dr_ok empty_method_client) = Some empty_method_request)
    by reflexivity.
  split; [exact R|]. split.
  - destruct (proj2 (response_request nr_ok dr_ok huge_timeout_client) _ R)
      as [_ [_ [_ [_ [_ [_ [_ [_ [_ T]]]]]]]]].
    apply (proj2 (T ltac:(simpl; lia))).
  - split; [exact R'|].
    destruct (proj2 (response_request nr_ok dr_ok empty_method_client) _ R')
      as [_ [_ [_ [_ [_ [_ [M _]]]]]]].
    apply (M eq_refl).
Defined.

Lemma parse_contract_witness :
  err (set_respBody NewReq resp404) = None /\
  ParseDataJson unmarshal_ok (set_respBody NewReq resp404) (Some tt) =
    Some (Some "404 Not Found", true).
Proof.
  split; [reflexivity|].
  destruct (parse_contract unit unmarshal_ok (set_respBody NewReq resp404) (Some tt) "")
    as [_ [_ [_ [P _]]]].
  apply (P resp404 eq_refl eq_refl); discriminate.
Defined.

End ClientFacts.
